(** * A model of [packages/core/src/commands/build.js] (phenomic)

    The build command is translated phase by phase into a state and error
    monad over a [world]: the event trace of the effects the command performs,
    the content store [db] (a module singleton that outlives one build) and
    the files on disk.  Plugins and the collaborators of the command
    ([getPort], [getPath], [oneShot], [processFile], [writeFile]) are inputs
    whose outcomes are fixed by an environment [env]. *)

From Stdlib Require Import String Ascii List Arith Lia Bool Permutation Relations.
Import ListNotations.

Local Set Warnings "-abstract-large-number".
Local Open Scope string_scope.
Local Open Scope nat_scope.
Local Open Scope list_scope.

(** ** Node's [path.join] (POSIX) *)

Fixpoint split_on (sep : ascii) (s : string) : list string :=
  match s with
  | EmptyString => [EmptyString]
  | String a r =>
      let parts := split_on sep r in
      if Ascii.eqb a sep then EmptyString :: parts
      else match parts with
           | p :: ps => String a p :: ps
           | [] => [String a EmptyString]
           end
  end.

(** [normalizeString]: [res] holds the segments kept so far, last first. *)
Fixpoint normalizeString (allowAboveRoot : bool) (res : list string)
    (segs : list string) : list string :=
  match segs with
  | [] => rev res
  | seg :: segs' =>
      if String.eqb seg "" || String.eqb seg "." then
        normalizeString allowAboveRoot res segs'
      else if String.eqb seg ".." then
        match res with
        | last :: res' =>
            if String.eqb last ".." then
              normalizeString allowAboveRoot
                (if allowAboveRoot then ".." :: res else res) segs'
            else normalizeString allowAboveRoot res' segs'
        | [] =>
            normalizeString allowAboveRoot
              (if allowAboveRoot then [".."] else []) segs'
        end
      else normalizeString allowAboveRoot (seg :: res) segs'
  end.

Definition first_char (s : string) : option ascii :=
  match s with EmptyString => None | String a _ => Some a end.

Definition last_char (s : string) : option ascii :=
  first_char (string_of_list_ascii (rev (list_ascii_of_string s))).

Definition path_normalize (p : string) : string :=
  if String.eqb p "" then "." else
  let isAbsolute := match first_char p with Some "/"%char => true | _ => false end in
  let trailingSeparator :=
    match last_char p with Some "/"%char => true | _ => false end in
  let p' := String.concat "/"
              (normalizeString (negb isAbsolute) [] (split_on "/"%char p)) in
  if String.eqb p' "" then
    (if isAbsolute then "/" else if trailingSeparator then "./" else ".")
  else
    let p'' := if trailingSeparator then (p' ++ "/")%string else p' in
    if isAbsolute then ("/" ++ p'')%string else p''.

(** [path.join(...args)]: empty arguments are skipped. *)
Definition path_join (args : list string) : string :=
  let joined := String.concat "/" (filter (fun a => negb (String.eqb a "")) args) in
  if String.eqb joined "" then "." else path_normalize joined.

(** ** [decodeURIComponent]

    A JavaScript string is represented by its UTF-8 bytes.  This is the
    [Decode] operation of ECMAScript with an empty reserved set: every
    escape is decoded, a malformed escape or an escape sequence that is not
    the UTF-8 encoding of a code point throws a [URIError] ([None] here). *)

Definition hex_digit (c : ascii) : option nat :=
  let n := nat_of_ascii c in
  if (48 <=? n) && (n <=? 57) then Some (n - 48)
  else if (65 <=? n) && (n <=? 70) then Some (n - 55)
  else if (97 <=? n) && (n <=? 102) then Some (n - 87)
  else None.

(** One [%XX] escape at the head of the input. *)
Definition escape_byte (cs : list ascii) : option (nat * list ascii) :=
  match cs with
  | c :: h :: l :: rest =>
      if Ascii.eqb c "%"%char then
        match hex_digit h, hex_digit l with
        | Some a, Some b => Some (16 * a + b, rest)
        | _, _ => None
        end
      else None
  | _ => None
  end.

Fixpoint read_continuations (k : nat) (cs : list ascii)
    : option (list nat * list ascii) :=
  match k with
  | 0 => Some ([], cs)
  | S k' =>
      match escape_byte cs with
      | Some (b, rest) =>
          if (128 <=? b) && (b <? 192) then
            match read_continuations k' rest with
            | Some (bs, r) => Some (b :: bs, r)
            | None => None
            end
          else None
      | None => None
      end
  end.

(** Number of octets announced by a leading byte; 0 when it cannot lead. *)
Definition utf8_lead_length (b : nat) : nat :=
  if b <? 128 then 1
  else if b <? 192 then 0
  else if b <? 224 then 2
  else if b <? 240 then 3
  else if b <? 248 then 4
  else 0.

Definition code_point (n b : nat) (conts : list nat) : nat :=
  fold_left (fun acc c => acc * 64 + c mod 64) conts
    (b mod (match n with 2 => 32 | 3 => 16 | _ => 8 end)).

Definition utf8_valid (n cp : nat) : bool :=
  match n with
  | 2 => 128 <=? cp
  | 3 => (2048 <=? cp) && negb ((55296 <=? cp) && (cp <=? 57343))
  | 4 => (65536 <=? cp) && (cp <=? 1114111)
  | _ => false
  end.

(** Every round consumes at least one character, so [length cs] rounds
    suffice. *)
Fixpoint decode_go (fuel : nat) (cs : list ascii) : option (list ascii) :=
  match fuel with
  | 0 => Some []
  | S fuel' =>
      match cs with
      | [] => Some []
      | c :: rest =>
          if Ascii.eqb c "%"%char then
            match escape_byte cs with
            | None => None
            | Some (b, rest') =>
                if b <? 128 then
                  option_map (cons (ascii_of_nat b)) (decode_go fuel' rest')
                else
                  let n := utf8_lead_length b in
                  if n <? 2 then None else
                  match read_continuations (n - 1) rest' with
                  | None => None
                  | Some (conts, rest'') =>
                      if utf8_valid n (code_point n b conts) then
                        option_map (app (map ascii_of_nat (b :: conts)))
                          (decode_go fuel' rest'')
                      else None
                  end
            end
          else option_map (cons c) (decode_go fuel' rest)
      end
  end.

Definition decodeURIComponent (s : string) : option string :=
  let cs := list_ascii_of_string s in
  option_map string_of_list_ascii (decode_go (length cs) cs).


(** ** Values, plugins and the environment *)

(** A thrown value: the [Error]s built by the command and its plugins, and
    the [URIError] of [decodeURIComponent]. *)
Inductive exn : Type :=
| Error (message : string)
| URIError.

Definition exn_eq_dec (x y : exn) : {x = y} + {x <> y}.
Proof. decide equality; apply string_dec. Defined.

(** The outcome of a call, or of a settled promise. *)
Inductive result (A : Type) : Type :=
| Ok (a : A)
| Throw (e : exn).
Arguments Ok {A} a.
Arguments Throw {A} e.

Definition assets := string.
Definition app := string.
Definition routes := string.

(** A record of the content store: its id and its serialised body. *)
Definition content_record := (string * string)%type.

(** A [RenderedFile] [{path, contents}]. *)
Record rendered_file := RenderedFile { rf_path : string; rf_contents : string }.

(** A plugin: each capability is absent ([None]) or present; a present
    capability carries the outcome of calling it.  [resolveURLs] and
    [renderStatic] receive the [phenomicFetch] bridge, i.e. read access to
    the content store. *)
Module Plugin.
Record t := Make {
  name : string;
  transform : bool;
  collect : bool;
  beforeBuild : option (result unit);
  build : option (result assets);
  buildForPrerendering : option (result app);
  getRoutes : option (app -> routes);
  resolveURLs : option (routes -> list content_record -> result (list string));
  renderStatic :
    option (app -> assets -> string -> list content_record -> result (list rendered_file))
}.
End Plugin.

(** [PhenomicConfig]. *)
Record config := Config {
  path : string;
  content : string;
  outdir : string;
  plugins : list Plugin.t
}.

(** The collaborators of the command and their outcomes.  [processFile]
    ([injection/processFile.js]) and [writeFile] ([utils/writeFile.js]) are
    not part of the sources: see their uses below. *)
Record env := Env {
  rimraf_error : option exn;
  getPort : result nat;
  getPath : string -> result string;
  oneShot : string -> list string;
  processFile : string -> result (list content_record);
  writeFile : string -> string -> option exn
}.

(** ** Effects *)

Inductive event : Type :=
| ERimraf (p : string)                  (* rimraf.sync(p) *)
| ECreateServer                         (* createServer(db, plugins) *)
| EListen (port : nat)                  (* phenomicServer.listen(port) *)
| EBeforeBuild (plugin : string)        (* plugin.beforeBuild(config) *)
| EBuild (plugin : string)              (* bundler.build(config) *)
| EBuildForPrerendering (plugin : string)
| EWarn (msg : string)                  (* log.warn *)
| EDestroy                              (* db.destroy() *)
| EProcessFile (file : string)          (* processFile({file, ...}) *)
| EResolved (urls : list string)        (* debug(urls) *)
| ELog (msg : string)                   (* console.log of a warning *)
| ERenderStatic (location : string)     (* renderer.renderStatic(...) *)
| EWrite (p : string) (contents : string) (* a completed writeFile *)
| EClose.                               (* runningServer.close() *)

Definition event_eq_dec (x y : event) : {x = y} + {x <> y}.
Proof.
  decide equality;
    first [ apply string_dec | apply Nat.eq_dec | apply list_eq_dec, string_dec ].
Defined.

Record world := World {
  trace : list event;
  db : list content_record;
  disk : list (string * string)
}.

Definition M (A : Type) := world -> result A * world.

Definition ret {A} (a : A) : M A := fun w => (Ok a, w).
Definition throw {A} (e : exn) : M A := fun w => (Throw e, w).
Definition bind {A B} (m : M A) (k : A -> M B) : M B :=
  fun w => match m w with
           | (Ok a, w') => k a w'
           | (Throw e, w') => (Throw e, w')
           end.
Definition try_catch {A} (m : M A) (h : exn -> M A) : M A :=
  fun w => match m w with
           | (Ok a, w') => (Ok a, w')
           | (Throw e, w') => h e w'
           end.

Notation "x <- m ;; k" := (bind m (fun x => k))
  (at level 61, m at next level, right associativity).
Notation "m ;; k" := (bind m (fun _ => k)) (at level 61, right associativity).

Definition lift {A} (r : result A) : M A :=
  match r with Ok a => ret a | Throw e => throw e end.

Definition emit (ev : event) : M unit :=
  fun w => (Ok tt, World (trace w ++ [ev]) (db w) (disk w)).

Definition get_db : M (list content_record) := fun w => (Ok (db w), w).

Definition set_db (d : list content_record) : M unit :=
  fun w => (Ok tt, World (trace w) d (disk w)).

Definition set_disk (d : list (string * string)) : M unit :=
  fun w => (Ok tt, World (trace w) (db w) d).

Definition get_disk : M (list (string * string)) := fun w => (Ok (disk w), w).

(** Run every call, keeping each outcome as a settled promise. *)
Fixpoint map_settled {A B} (f : A -> M (result B)) (xs : list A) : M (list (result B)) :=
  match xs with
  | [] => ret []
  | x :: xs' => r <- f x;; rs <- map_settled f xs';; ret (r :: rs)
  end.

(** [Promise.all] over settled promises: rejects with the first rejection. *)
Fixpoint promise_all {A} (rs : list (result A)) : M unit :=
  match rs with
  | [] => ret tt
  | Ok _ :: rs' => promise_all rs'
  | Throw e :: _ => throw e
  end.

(** ** Collaborators *)

Definition under (root p : string) : bool :=
  String.eqb p root || String.prefix (root ++ "/") p.

(** [rimraf.sync(p)]: removes [p] and everything below it. *)
Definition rimraf_sync (E : env) (p : string) : M unit :=
  match rimraf_error E with
  | Some e => throw e
  | None =>
      d <- get_disk;;
      set_disk (filter (fun f => negb (under p (fst f))) d);;
      emit (ERimraf p)
  end.

(** Modelled from the spec: [writeFile] ([utils/writeFile.js], not in the
    sources) writes [contents] at [p], creating intermediate directories as
    needed and overwriting an existing file; it returns a promise, kept here
    as its settled outcome. *)
Definition writeFile_call (E : env) (p contents : string) : M (result unit) :=
  match writeFile E p contents with
  | Some e => ret (Throw e)
  | None =>
      d <- get_disk;;
      set_disk ((p, contents) :: filter (fun f => negb (String.eqb (fst f) p)) d);;
      emit (EWrite p contents);;
      ret (Ok tt)
  end.

(** Modelled from the spec: [processFile] ([injection/processFile.js], not
    in the sources) runs the file through the transform chain and then the
    collect chain, which persist the records [processFile E file] into the
    store; a failure rejects the promise.  How many records a failing file
    leaves behind (the collectors persist one after the other) is not fixed
    by the sources; the model persists none. *)
Definition processFile_call (E : env) (file : string) : M (result unit) :=
  emit (EProcessFile file);;
  match processFile E file with
  | Throw e => ret (Throw e)
  | Ok rs => d <- get_db;; set_db (d ++ rs);; ret (Ok tt)
  end.

Definition db_destroy : M unit := set_db [];; emit EDestroy.

Definition runningServer_close : M unit := emit EClose.

(** ** [getContent] *)

Definition getContentPath (config : config) : string :=
  path_join [path config; content config].

Definition err_transform := Error "Phenomic expects at least a transform plugin".
Definition err_collector := Error "Phenomic expects at least a collector plugin".

Definition no_content_warning (config : config) : string :=
  "no '" ++ content config ++ "' folder found. Please create and put files in this folder if you want the content to be accessible (eg: markdown or JSON files). ".

Definition getContent (E : env) (config : config) : M unit :=
  let transformers := filter Plugin.transform (plugins config) in
  if length transformers =? 0 then throw err_transform else
  let collectors := filter Plugin.collect (plugins config) in
  if length collectors =? 0 then throw err_collector else
  contentPath <-
    (match getPath E (getContentPath config) with
     | Ok p => ret (Some p)
     | Throw _ => emit (EWarn (no_content_warning config));; ret None
     end);;
  match contentPath with
  | Some cp =>
      if String.eqb cp "" then ret tt else
      let files := oneShot E cp in
      db_destroy;;
      settled <- map_settled (processFile_call E) files;;
      promise_all settled
  | None => ret tt
  end.

(** ** [prerenderFileAndDependencies] *)

Definition err_renderStatic :=
  Error "a renderer is required (plugin implementing 'renderStatic')".

(** [files.map(file => writeFile(path.join(outdir, decodeURIComponent(file.path)), ...))]:
    the writes are started in order; a path that does not decode throws
    synchronously out of [map], after the earlier writes were started.  Each
    write is settled here before the next starts; in the source the writes
    run together, and the page's promise may settle while earlier writes are
    still pending. *)
Fixpoint write_files (E : env) (outdir : string) (files : list rendered_file)
    : M (list (result unit)) :=
  match files with
  | [] => ret []
  | f :: fs =>
      match decodeURIComponent (rf_path f) with
      | None => throw URIError
      | Some p =>
          r <- writeFile_call E (path_join [outdir; p]) (rf_contents f);;
          rs <- write_files E outdir fs;;
          ret (r :: rs)
      end
  end.

Definition prerenderFileAndDependencies (E : env) (config : config)
    (renderer : option Plugin.t) (app : app) (assets : assets) (location : string)
    : M unit :=
  match renderer with
  | None => throw err_renderStatic
  | Some r =>
      match Plugin.renderStatic r with
      | None => throw err_renderStatic
      | Some renderStatic =>
          emit (ERenderStatic location);;
          st <- get_db;;
          files <- lift (renderStatic app assets location st);;
          settled <- write_files E (outdir config) files;;
          promise_all settled
      end
  end.

(** [pMap(urls, mapper, {concurrency})]: its effects, with every mapper call
    settled before the next one starts, and rejection at the first failure.
    This is one schedule among those of [p-map], which runs up to
    [concurrency] mappers at once and lets those in flight run on after a
    rejection; how the calls interleave is the subject of [PMap] below. *)
Fixpoint pMap {A} (xs : list A) (mapper : A -> M unit) (concurrency : nat) : M unit :=
  match xs with
  | [] => ret tt
  | x :: xs' => mapper x;; pMap xs' mapper concurrency
  end.

(** ** [build] *)

Definition err_bundler_build :=
  Error "a bundler is required (plugin implementing `build`)".
Definition err_bundler_buildForPrerendering :=
  Error "a bundler is required (plugin implementing `buildForPrerendering`)".
Definition err_getRoutes :=
  Error "a renderer is required (plugin implementing `getRoutes`)".
Definition err_resolveURLs :=
  Error "an urls-resolver is required (plugin implementing resolveURLs)".

Definition no_urls_warning :=
  "No URLs resolved. You should probably double-check your routes. If you are using a single '*' route, you need to add an '/' to get a least a static entry point.".

(** [config.plugins.filter(p => p.cap)[0]] *)
Definition first_with {X} (cap : Plugin.t -> option X) (ps : list Plugin.t)
    : option Plugin.t :=
  hd_error (filter (fun p => if cap p then true else false) ps).

Definition selectBundler (ps : list Plugin.t) := first_with Plugin.buildForPrerendering ps.
Definition selectRenderer (ps : list Plugin.t) := first_with Plugin.getRoutes ps.
Definition selectUrlsResolver (ps : list Plugin.t) := first_with Plugin.resolveURLs ps.

Definition prerender_concurrency := 50.

(** [rimraf.sync("dist")] *)
Definition cleaning (E : env) : M unit := rimraf_sync E "dist".

(** [createServer(db, plugins)], [await getPort()], [listen(port)].  The
    environment defaults set in between ([NODE_ENV], ...) and the progress
    logs are left out. *)
Definition serverStart (E : env) : M nat :=
  emit ECreateServer;;
  port <- lift (getPort E);;
  emit (EListen port);;
  ret port.

(** [Promise.all(config.plugins.map(p => p.beforeBuild && p.beforeBuild(config)))].
    A hook is represented by its call and its outcome; what the plugin code
    does besides is not modelled. *)
Definition beforeBuildHooks (E : env) (config : config) : M unit :=
  settled <- map_settled
    (fun p => match Plugin.beforeBuild p with
              | None => ret (Ok tt)
              | Some r => emit (EBeforeBuild (Plugin.name p));; ret r
              end) (plugins config);;
  promise_all settled.

(** From the start of the [try] block to [bundler.buildForPrerendering].
    [build] and [buildForPrerendering] are represented by their calls and
    outcomes; the assets the bundler writes are not modelled. *)
Definition bundling (E : env) (config : config) : M (assets * app) :=
  let bundler := selectBundler (plugins config) in
  beforeBuildHooks E config;;
  match bundler with
  | None => throw err_bundler_build
  | Some b =>
      match Plugin.build b with
      | None => throw err_bundler_build
      | Some rbuild =>
          emit (EBuild (Plugin.name b));;
          assets <- lift rbuild;;
          match Plugin.buildForPrerendering b with
          | None => throw err_bundler_buildForPrerendering
          | Some rapp =>
              emit (EBuildForPrerendering (Plugin.name b));;
              app <- lift rapp;;
              ret (assets, app)
          end
      end
  end.

(** From the selection of the renderer to the end of the fan-out. *)
Definition prerendering (E : env) (config : config) (assets : assets) (app : app)
    : M unit :=
  let renderer := selectRenderer (plugins config) in
  match option_map Plugin.getRoutes renderer with
  | None | Some None => throw err_getRoutes
  | Some (Some getRoutes) =>
      match option_map Plugin.resolveURLs (selectUrlsResolver (plugins config)) with
      | None | Some None => throw err_resolveURLs
      | Some (Some resolveURLs) =>
          st <- get_db;;
          urls <- lift (resolveURLs (getRoutes app) st);;
          emit (EResolved urls);;
          (match urls with [] => emit (ELog no_urls_warning) | _ => ret tt end);;
          pMap urls
            (fun location =>
               prerenderFileAndDependencies E config renderer app assets location)
            prerender_concurrency
      end
  end.

(** The [try] block. *)
Definition build_try (E : env) (config : config) (port : nat) : M unit :=
  aa <- bundling E config;;
  getContent E config;;
  prerendering E config (fst aa) (snd aa);;
  runningServer_close.

Definition build (E : env) (config : config) : M unit :=
  cleaning E;;
  port <- serverStart E;;
  try_catch (build_try E config port)
    (fun error => runningServer_close;; throw error).

(** ** The scheduling of [pMap]

    Modelled from [p-map] (a dependency of the package, not part of the
    sources): [next()] takes the next item and starts its mapper unless the
    map was rejected; when the items are exhausted and no mapper is pending,
    the returned promise resolves; a mapper that fulfils decrements the
    pending count and calls [next()]; one that rejects marks the map
    rejected and rejects the returned promise.  [init] is the loop that
    calls [next()] [concurrency] times, stopping once the items are
    exhausted.  The cooperative event loop settles any pending mapper at
    each step. *)
Module PMap.
Record state := St {
  pending : list string;              (* items not yet taken *)
  inflight : list string;             (* mapper promises not yet settled *)
  completed : list string;            (* mapper promises fulfilled *)
  isRejected : bool;
  iterableDone : bool;
  outcome : option (result unit)      (* the returned promise, once settled *)
}.

Definition next (s : state) : state :=
  if isRejected s then s else
  match pending s with
  | [] =>
      St [] (inflight s) (completed s) false true
        (match inflight s with [] => Some (Ok tt) | _ => outcome s end)
  | x :: xs =>
      St xs (inflight s ++ [x]) (completed s) false (iterableDone s) (outcome s)
  end.

Fixpoint start (k : nat) (s : state) : state :=
  match k with
  | 0 => s
  | S k' => let s' := next s in if iterableDone s' then s' else start k' s'
  end.

Definition init (concurrency : nat) (items : list string) : state :=
  start concurrency (St items [] [] false false None).

(** [mapper x] is the outcome of the mapper promise of [x]: [None] when it
    fulfils, [Some e] when it rejects with [e]. *)
Inductive step (mapper : string -> option exn) : state -> state -> Prop :=
| step_fulfil s l1 x l2 :
    inflight s = l1 ++ x :: l2 ->
    mapper x = None ->
    step mapper s
      (next (St (pending s) (l1 ++ l2) (completed s ++ [x])
               (isRejected s) (iterableDone s) (outcome s)))
| step_reject s l1 x l2 e :
    inflight s = l1 ++ x :: l2 ->
    mapper x = Some e ->
    step mapper s
      (St (pending s) (l1 ++ l2) (completed s) true (iterableDone s)
         (match outcome s with None => Some (Throw e) | o => o end)).

Definition reachable (mapper : string -> option exn) := clos_refl_trans _ (step mapper).

(** Every run from [s] ends, and ends with the map resolved after every
    item's mapper fulfilled. *)
Inductive completes (mapper : string -> option exn) (items : list string)
    : state -> Prop :=
| completes_done s :
    outcome s = Some (Ok tt) -> inflight s = [] ->
    Permutation items (completed s) ->
    completes mapper items s
| completes_step s :
    (exists s', step mapper s s') ->
    (forall s', step mapper s s' -> completes mapper items s') ->
    completes mapper items s.
End PMap.

(** ** Concrete configurations *)

Definition empty_world : world := World [] [] [].

(** Every collaborator succeeds; the content directory holds [index.md]. *)
Definition env_ok : env :=
  Env None (Ok 3333) (fun p => Ok p) (fun _ => ["index.md"])
      (fun f => Ok [(f, "body")]) (fun _ _ => None).

Definition bundler_plugin : Plugin.t :=
  Plugin.Make "bundler" false false None (Some (Ok "assets")) (Some (Ok "app"))
    None None None.

Definition content_plugin : Plugin.t :=
  Plugin.Make "content" true true None None None None None None.

(** A renderer resolving [urls] and rendering each location to [files]. *)
Definition renderer_plugin (urls : list string) (files : list rendered_file) : Plugin.t :=
  Plugin.Make "renderer" false false None None None
    (Some (fun _ => "routes")) (Some (fun _ _ => Ok urls))
    (Some (fun _ _ _ _ => Ok files)).

(** The same renderer without [renderStatic]. *)
Definition routes_only_plugin (urls : list string) : Plugin.t :=
  Plugin.Make "routes-only" false false None None None
    (Some (fun _ => "routes")) (Some (fun _ _ => Ok urls)) None.

(** A plugin with [build] but no [buildForPrerendering]. *)
Definition build_only_plugin : Plugin.t :=
  Plugin.Make "build-only" false false None (Some (Ok "assets")) None None None None.

(** A plugin whose [beforeBuild] hook rejects. *)
Definition failing_hook_plugin : Plugin.t :=
  Plugin.Make "failing-hook" false false (Some (Throw (Error "hook failed")))
    None None None None None.

Definition site_config (outdir : string) (ps : list Plugin.t) : config :=
  Config "/site" "content" outdir ps.

Definition full_site (urls : list string) : config :=
  site_config "dist"
    [bundler_plugin; content_plugin;
     renderer_plugin urls [RenderedFile "index.html" "<html>"]].

(** ** Predicates on runs

    Classes of events and properties of computations used to state the
    properties below. *)

(** [appends P m]: [m] only appends to the trace, and only events of [P]. *)
Definition appends (P : event -> Prop) {A} (m : M A) : Prop :=
  forall w, exists evs, trace (snd (m w)) = trace w ++ evs /\ Forall P evs.

(** Events of the phases that precede the route resolution. *)
Definition early_event (ev : event) : Prop :=
  match ev with
  | EResolved _ | ELog _ | ERenderStatic _ | EWrite _ _ | EClose => False
  | _ => True
  end.

(** Events of the fan-out. *)
Definition fanout_event (ev : event) : Prop :=
  match ev with ERenderStatic _ | EWrite _ _ => True | _ => False end.

(** Events other than [runningServer.close()]. *)
Definition noclose (ev : event) : Prop := ev <> EClose.

(** The records that processing [file] persists. *)
Definition records_of (E : env) (file : string) : list content_record :=
  match processFile E file with Ok rs => rs | Throw _ => [] end.

(** No usable bundler: no plugin has [buildForPrerendering], or the first
    one lacks [build]. *)
Definition bundler_missing (ps : list Plugin.t) : bool :=
  match selectBundler ps with
  | None => true
  | Some b => if Plugin.build b then false else true
  end.

(** No plugin has [getRoutes]. *)
Definition renderer_missing (ps : list Plugin.t) : bool :=
  if selectRenderer ps then false else true.

(** No plugin has [resolveURLs]. *)
Definition resolver_missing (ps : list Plugin.t) : bool :=
  if selectUrlsResolver ps then false else true.

(** Events other than a [renderStatic] call or a page write. *)
Definition not_fanout (ev : event) : Prop := ~ fanout_event ev.


(** The events other than [debug(urls)]. *)
Definition resolved_free (ev : event) : Prop :=
  match ev with EResolved _ => False | _ => True end.

(** The warning logged after [debug(urls)] when [urls] is empty. *)
Definition no_urls_log (urls : list string) : list event :=
  match urls with [] => [ELog no_urls_warning] | _ => [] end.

(** Whether [t] starts with two hexadecimal digits, the rest of a [%XX]
    escape. *)
Definition starts_with_hex2 (t : string) : bool :=
  match t with
  | String h (String l _) =>
      match hex_digit h, hex_digit l with Some _, Some _ => true | _, _ => false end
  | _ => false
  end.

(** A proper name: neither empty, nor [.], nor [..]. *)
Definition plain_segment (seg : string) : bool :=
  negb (String.eqb seg "" || String.eqb seg "." || String.eqb seg "..").

(** A path whose segments are all proper names: no empty segment (so no
    leading, trailing or doubled [/]), no [.] and no [..]. *)
Definition plain_path (s : string) : bool :=
  forallb plain_segment (split_on "/"%char s).

(** Where [prerenderFileAndDependencies] writes a rendered file whose path
    decodes. *)
Definition write_target (outdir : string) (f : rendered_file) : string :=
  match decodeURIComponent (rf_path f) with
  | Some p => path_join [outdir; p]
  | None => ""
  end.

(** Whether the write of a rendered file at its target succeeds. *)
Definition write_succeeds (E : env) (outdir : string) (f : rendered_file) : bool :=
  match writeFile E (write_target outdir f) (rf_contents f) with
  | None => true
  | Some _ => false
  end.

(** The [EWrite] events of the successful writes of [files], in order. *)
Definition written (E : env) (outdir : string) (files : list rendered_file) : list event :=
  map (fun f => EWrite (write_target outdir f) (rf_contents f))
    (filter (write_succeeds E outdir) files).

(** The [beforeBuild] calls of [ps], in plugin order. *)
Definition before_build_events (ps : list Plugin.t) : list event :=
  map (fun p => EBeforeBuild (Plugin.name p))
    (filter (fun p => if Plugin.beforeBuild p then true else false) ps).

(** * Properties *)

(** ** Decoding and joining on sample paths *)

Example decode_space : decodeURIComponent "a%20b.html" = Some "a b.html".
Proof. reflexivity. Qed.
Example decode_bad : decodeURIComponent "100%.html" = None.
Proof. reflexivity. Qed.
Example decode_utf8 : decodeURIComponent "%C3%A9t%C3%A9" = Some "été".
Proof. reflexivity. Qed.
Example join1 : path_join ["dist"; "a b.html"] = "dist/a b.html".
Proof. reflexivity. Qed.
Example join2 : path_join ["/site/dist/"; "../x/./y.html"] = "/site/x/y.html".
Proof. reflexivity. Qed.

(** ** The fan-out scheduler *)

Section PMapProofs.
Import PMap.

Lemma next_inflight s :
  inflight (next s) = inflight s \/ exists x, inflight (next s) = inflight s ++ [x].
Proof.
  unfold next. destruct (isRejected s); [now left|].
  destruct (pending s) as [|x xs]; simpl; [now left | right; now exists x].
Qed.

Lemma start_bound c k s :
  length (inflight s) + k <= c -> length (inflight (start k s)) <= c.
Proof.
  revert s; induction k as [|k IH]; intros s H; simpl; [lia|].
  assert (Hn : length (inflight (next s)) + k <= c).
  { destruct (next_inflight s) as [-> | [x ->]]; rewrite ?length_app; simpl; lia. }
  destruct (iterableDone (next s)); [lia | now apply IH].
Qed.

Lemma step_inflight_le mapper s s' :
  step mapper s s' -> length (inflight s') <= length (inflight s).
Proof.
  intros Hs; destruct Hs as [s l1 x l2 Hin _ | s l1 x l2 e Hin _]; rewrite Hin.
  - destruct (next_inflight
                (St (pending s) (l1 ++ l2) (completed s ++ [x])
                    (isRejected s) (iterableDone s) (outcome s))) as [-> | [y ->]];
      simpl; rewrite !length_app; simpl; lia.
  - simpl; rewrite !length_app; simpl; lia.
Qed.

Lemma reachable_bound mapper c s s' :
  reachable mapper s s' -> length (inflight s) <= c -> length (inflight s') <= c.
Proof.
  unfold reachable; intros Hr; induction Hr as [x y Hxy | x | x y z _ IH1 _ IH2];
    intros H; auto.
  pose proof (step_inflight_le _ _ _ Hxy); lia.
Qed.

(** The invariant of a run in which no mapper rejects. *)
Definition live (items : list string) (s : state) : Prop :=
  isRejected s = false /\
  Permutation items (completed s ++ inflight s ++ pending s) /\
  (outcome s = None -> inflight s <> []) /\
  (outcome s <> None -> outcome s = Some (Ok tt) /\ pending s = [] /\ inflight s = []).

Lemma start_live items k s :
  isRejected s = false -> outcome s = None -> iterableDone s = false ->
  Permutation items (completed s ++ inflight s ++ pending s) ->
  (1 <= k \/ inflight s <> []) ->
  live items (start k s).
Proof.
  revert s; induction k as [|k IH]; intros s Hr Ho Hd Hp Hk; simpl.
  - destruct Hk as [Hk|Hk]; [lia|].
    repeat split; auto; congruence.
  - destruct (pending s) as [|x xs] eqn:Hpend.
    + assert (E : next s = St [] (inflight s) (completed s) false true
                      (match inflight s with [] => Some (Ok tt) | _ => outcome s end))
        by (unfold next; now rewrite Hr, Hpend).
      rewrite E; simpl.
      destruct (inflight s) as [|y ys] eqn:Hinf; unfold live; simpl.
      * rewrite app_nil_r in Hp; simpl in Hp.
        repeat split; try (intros; discriminate); rewrite ?app_nil_r; auto.
      * rewrite Ho.
        repeat split; try (intros; congruence); rewrite ?app_nil_r in *; auto.
    + assert (E : next s = St xs (inflight s ++ [x]) (completed s) false
                      (iterableDone s) (outcome s))
        by (unfold next; now rewrite Hr, Hpend).
      rewrite E; simpl; rewrite Hd.
      apply IH; simpl; auto.
      * now rewrite <- app_assoc.
      * right. destruct (inflight s); simpl; congruence.
Qed.

Lemma init_live items c : 1 <= c -> live items (init c items).
Proof.
  intros Hc; apply start_live; simpl; auto.
Qed.
Definition measure (s : state) : nat :=
  2 * length (pending s) + length (inflight s).

Lemma live_in items s x :
  live items s -> In x (inflight s) -> In x items.
Proof.
  intros [_ [Hp _]] Hx. apply (Permutation_in x (Permutation_sym Hp)).
  apply in_or_app; right; apply in_or_app; now left.
Qed.

Lemma step_live mapper items s s' :
  (forall u, In u items -> mapper u = None) ->
  live items s -> step mapper s s' -> live items s' /\ measure s' < measure s.
Proof.
  intros Hok Hl Hs.
  destruct Hs as [s l1 x l2 Hin Hx | s l1 x l2 e Hin Hx].
  - pose proof Hl as [Hr [Hp [H3 H4]]].
    assert (Ho : outcome s = None).
    { destruct (outcome s) eqn:Eo; auto. exfalso.
      destruct (H4 ltac:(congruence)) as [_ [_ Hi]].
      rewrite Hin in Hi. destruct l1; discriminate. }
    assert (Hp' : Permutation items (completed s ++ x :: (l1 ++ l2) ++ pending s)).
    { rewrite Hin in Hp. eapply Permutation_trans; [exact Hp|].
      rewrite <- !app_assoc. apply Permutation_app_head. simpl.
      symmetry; apply Permutation_middle. }
    unfold next, measure, live in *; cbn; rewrite Hr, Ho, Hin.
    rewrite Hin in H3; clear H3 H4.
    destruct (pending s) as [|y ys] eqn:Hpend; cbn.
    + rewrite app_nil_r in Hp'.
      pose proof (f_equal (@length string) (eq_refl (l1 ++ l2))) as HL.
      rewrite length_app in HL at 2.
      destruct (l1 ++ l2) as [|z zs]; cbn in *;
        repeat split; try (intros; congruence);
        rewrite ?app_nil_r, <- ?app_assoc in *; simpl in *;
        rewrite ?app_nil_r in *; auto; rewrite ?length_app in *; simpl in *; lia.
    + repeat split; try (intros; congruence).
      * eapply Permutation_trans; [exact Hp'|].
        rewrite <- ?app_assoc; simpl; rewrite <- ?app_assoc; reflexivity.
      * intros _. destruct (l1 ++ l2); discriminate.
      * rewrite !length_app; simpl; lia.
  - exfalso. assert (In x items).
    { apply (live_in items s x Hl). rewrite Hin. apply in_or_app; right; now left. }
    rewrite (Hok x H) in Hx; discriminate.
Qed.

Lemma live_completes mapper items s :
  (forall u, In u items -> mapper u = None) ->
  live items s -> completes mapper items s.
Proof.
  intros Hok. remember (measure s) as n eqn:En.
  revert s En. induction n as [n IH] using lt_wf_ind. intros s En Hl.
  destruct (inflight s) as [|x xs] eqn:Hinf.
  - pose proof Hl as [_ [Hp [H3 H4]]].
    destruct (outcome s) as [o|] eqn:Eo.
    + destruct (H4 ltac:(congruence)) as [Ho [Hpend _]].
      apply completes_done; [congruence | exact Hinf |].
      rewrite ?Hinf, ?Hpend, ?app_nil_r in Hp; exact Hp.
    + exfalso; now apply (H3 eq_refl).
  - apply completes_step.
    + exists (next (St (pending s) ([] ++ xs) (completed s ++ [x])
                        (isRejected s) (iterableDone s) (outcome s))).
      apply step_fulfil; auto.
      apply Hok, (live_in items s x Hl). rewrite Hinf; now left.
    + intros s' Hs. destruct (step_live mapper items s s' Hok Hl Hs) as [Hl' Hm].
      apply (IH (measure s')); auto. lia.
Qed.

End PMapProofs.

(** ** What a computation appends to the trace *)

Section Appends.
Variable P : event -> Prop.

Lemma appends_ret {A} (a : A) : appends P (ret a).
Proof. intros w; exists []; simpl; rewrite app_nil_r; auto. Qed.

Lemma appends_throw {A} (e : exn) : appends P (@throw A e).
Proof. intros w; exists []; simpl; rewrite app_nil_r; auto. Qed.

Lemma appends_emit ev : P ev -> appends P (emit ev).
Proof. intros H w; exists [ev]; simpl; auto. Qed.

Lemma appends_get_db : appends P get_db.
Proof. intros w; exists []; simpl; rewrite app_nil_r; auto. Qed.

Lemma appends_set_db d : appends P (set_db d).
Proof. intros w; exists []; simpl; rewrite app_nil_r; auto. Qed.

Lemma appends_get_disk : appends P get_disk.
Proof. intros w; exists []; simpl; rewrite app_nil_r; auto. Qed.

Lemma appends_set_disk d : appends P (set_disk d).
Proof. intros w; exists []; simpl; rewrite app_nil_r; auto. Qed.

Lemma appends_lift {A} (r : result A) : appends P (lift r).
Proof. destruct r; [apply appends_ret | apply appends_throw]. Qed.

Lemma appends_bind {A B} (m : M A) (k : A -> M B) :
  appends P m -> (forall a, appends P (k a)) -> appends P (bind m k).
Proof.
  intros Hm Hk w. unfold bind. destruct (Hm w) as [evs1 [E1 F1]].
  destruct (m w) as [[a|e] w1]; simpl in *.
  - destruct (Hk a w1) as [evs2 [E2 F2]]. exists (evs1 ++ evs2).
    rewrite E2, E1, app_assoc; split; auto. apply Forall_app; auto.
  - exists evs1; auto.
Qed.

Lemma appends_try_catch {A} (m : M A) (h : exn -> M A) :
  appends P m -> (forall e, appends P (h e)) -> appends P (try_catch m h).
Proof.
  intros Hm Hh w. unfold try_catch. destruct (Hm w) as [evs1 [E1 F1]].
  destruct (m w) as [[a|e] w1]; simpl in *.
  - exists evs1; auto.
  - destruct (Hh e w1) as [evs2 [E2 F2]]. exists (evs1 ++ evs2).
    rewrite E2, E1, app_assoc; split; auto. apply Forall_app; auto.
Qed.

Lemma appends_map_settled {A B} (f : A -> M (result B)) xs :
  (forall x, appends P (f x)) -> appends P (map_settled f xs).
Proof.
  intros Hf; induction xs as [|x xs IH]; simpl.
  - apply appends_ret.
  - apply appends_bind; auto; intros r. apply appends_bind; auto; intros rs.
    apply appends_ret.
Qed.

Lemma appends_promise_all {A} (rs : list (result A)) : appends P (promise_all rs).
Proof.
  induction rs as [|[a|e] rs IH]; simpl; auto using appends_ret, appends_throw.
Qed.

Lemma appends_pMap {A} (xs : list A) (f : A -> M unit) c :
  (forall x, appends P (f x)) -> appends P (pMap xs f c).
Proof.
  intros Hf; induction xs as [|x xs IH]; simpl.
  - apply appends_ret.
  - apply appends_bind; auto.
Qed.
End Appends.

Lemma appends_mono (P Q : event -> Prop) {A} (m : M A) :
  (forall ev, P ev -> Q ev) -> appends P m -> appends Q m.
Proof.
  intros HPQ Hm w. destruct (Hm w) as [evs [E F]]. exists evs; split; auto.
  eapply Forall_impl; eauto.
Qed.

Lemma appends_run P {A} (m : M A) w r w' :
  appends P m -> m w = (r, w') -> exists evs, trace w' = trace w ++ evs /\ Forall P evs.
Proof. intros Hm Hw. destruct (Hm w) as [evs H]. rewrite Hw in H. eauto. Qed.

Create HintDb appends.
#[export] Hint Resolve appends_ret appends_throw appends_get_db appends_set_db
  appends_get_disk appends_set_disk appends_lift appends_promise_all : appends.

(** Walk through the program text: binds, branches, and the collaborators. *)
Ltac appends_step :=
  match goal with
  | |- appends _ (bind _ _) => apply appends_bind; [|intro]
  | |- appends _ (try_catch _ _) => apply appends_try_catch; [|intro]
  | |- appends _ (map_settled _ _) => apply appends_map_settled; intro
  | |- appends _ (pMap _ _ _) => apply appends_pMap; intro
  | |- appends _ (emit _) => apply appends_emit; simpl; try exact I
  | |- appends _ (match ?x with _ => _ end) => destruct x
  | |- appends _ (if ?b then _ else _) => destruct b
  | |- appends _ (let _ := _ in _) => cbv zeta
  | |- appends _ _ => solve [auto with appends]
  end.

Ltac appends_tac := repeat appends_step.

Lemma cleaning_early E : appends early_event (cleaning E).
Proof. unfold cleaning, rimraf_sync. appends_tac. Qed.

Lemma serverStart_early E : appends early_event (serverStart E).
Proof. unfold serverStart. appends_tac. Qed.

Lemma bundling_early E config : appends early_event (bundling E config).
Proof. unfold bundling, beforeBuildHooks. appends_tac. Qed.

Lemma getContent_early E config : appends early_event (getContent E config).
Proof. unfold getContent, db_destroy, processFile_call. appends_tac. Qed.

Lemma write_files_fanout E outdir files :
  appends fanout_event (write_files E outdir files).
Proof.
  induction files as [|f fs IH]; simpl; appends_tac.
  unfold writeFile_call; appends_tac.
Qed.

Lemma prerenderFileAndDependencies_fanout E config renderer app assets location :
  appends fanout_event
    (prerenderFileAndDependencies E config renderer app assets location).
Proof.
  unfold prerenderFileAndDependencies. appends_tac. apply write_files_fanout.
Qed.

(** ** Running the phases *)

Lemma bind_assoc {A B C} (m : M A) (k : A -> M B) (h : B -> M C) w :
  bind (bind m k) h w = bind m (fun a => bind (k a) h) w.
Proof. unfold bind. destruct (m w) as [[a|e] w1]; reflexivity. Qed.

Lemma early_noclose ev : early_event ev -> noclose ev.
Proof. destruct ev; simpl; try contradiction; discriminate. Qed.

Lemma fanout_noclose ev : fanout_event ev -> noclose ev.
Proof. destruct ev; simpl; try contradiction; discriminate. Qed.

Lemma prerendering_noclose E config assets app :
  appends noclose (prerendering E config assets app).
Proof.
  unfold prerendering. appends_tac; try discriminate.
  all: eapply appends_mono;
       [apply fanout_noclose | apply prerenderFileAndDependencies_fanout].
Qed.

Lemma Forall_noclose evs : Forall noclose evs -> ~ In EClose evs.
Proof. intros F Hin. rewrite Forall_forall in F. now apply (F EClose Hin). Qed.

(** The [try] block closes the server as its last step when it succeeds and
    does not close it when it throws. *)
Lemma build_try_close E config port w :
  match build_try E config port w with
  | (Ok _, w') => exists evs, trace w' = trace w ++ evs ++ [EClose] /\ ~ In EClose evs
  | (Throw _, w') => exists evs, trace w' = trace w ++ evs /\ ~ In EClose evs
  end.
Proof.
  unfold build_try, bind.
  destruct (bundling E config w) as [[aa|e] w1] eqn:H1;
    destruct (appends_run _ _ _ _ _
                (appends_mono _ _ _ early_noclose (bundling_early E config)) H1)
      as [evs1 [T1 F1]].
  2: { exists evs1; split; auto using Forall_noclose. }
  destruct (getContent E config w1) as [[u|e] w2] eqn:H2;
    destruct (appends_run _ _ _ _ _
                (appends_mono _ _ _ early_noclose (getContent_early E config)) H2)
      as [evs2 [T2 F2]].
  2: { exists (evs1 ++ evs2); rewrite T2, T1, app_assoc; split; auto.
       apply Forall_noclose, Forall_app; auto. }
  destruct (prerendering E config (fst aa) (snd aa) w2) as [[v|e] w3] eqn:H3;
    destruct (appends_run _ _ _ _ _ (prerendering_noclose E config (fst aa) (snd aa)) H3)
      as [evs3 [T3 F3]].
  - exists (evs1 ++ evs2 ++ evs3). simpl. rewrite T3, T2, T1, !app_assoc.
    split; auto. apply Forall_noclose; rewrite !Forall_app; auto.
  - exists (evs1 ++ evs2 ++ evs3). rewrite T3, T2, T1, !app_assoc. split; auto.
    apply Forall_noclose; rewrite !Forall_app; auto.
Qed.

(** ** C1: closing the ephemeral server *)

(** C1 (amended): once the output directory has been cleaned and the server
    is listening, [build] calls [runningServer.close()] exactly once,
    whether the [try] block succeeds or throws, and returns or re-raises
    exactly the outcome of the [try] block.  Nothing is said about where the
    close falls among the other effects of the [try] block.  If cleaning
    fails, that error reaches the caller before anything else happens; if
    [getPort] fails, its error reaches the caller after [createServer] has
    run, and the server is never closed. *)
Theorem build_closes_server_once E config w :
  (forall e, rimraf_error E = Some e -> build E config w = (Throw e, w)) /\
  (forall e, rimraf_error E = None -> getPort E = Throw e ->
     fst (build E config w) = Throw e /\
     trace (snd (build E config w)) = trace w ++ [ERimraf "dist"; ECreateServer]) /\
  (forall port w1, (cleaning E;; serverStart E) w = (Ok port, w1) ->
     let (r, w') := build E config w in
     r = fst (build_try E config port w1) /\
     exists evs, trace w' = trace w1 ++ evs /\ count_occ event_eq_dec evs EClose = 1).
Proof.
  split; [|split].
  - intros e He. unfold build, cleaning, rimraf_sync. rewrite He. reflexivity.
  - intros e He Hp. unfold build, cleaning, rimraf_sync. rewrite He.
    unfold bind at 1 2 3 4 5. cbn. unfold serverStart, bind at 1 2. cbn. rewrite Hp.
    cbn. rewrite <- app_assoc. split; reflexivity.
  - intros port w1 Hstart. unfold build. unfold bind at 1. unfold bind in Hstart.
    destruct (cleaning E w) as [[[]|e] wc]; [|discriminate].
    unfold bind at 1. destruct (serverStart E wc) as [[p|e] ws]; [|discriminate].
    injection Hstart as -> ->.
    unfold try_catch. pose proof (build_try_close E config port w1) as Hc.
    destruct (build_try E config port w1) as [[u|e] w2]; simpl.
    + split; auto. destruct Hc as [evs [T N]]. exists (evs ++ [EClose]).
      split; [exact T|]. rewrite count_occ_app, (proj1 (count_occ_not_In _ _ _) N). reflexivity.
    + destruct Hc as [evs [T N]]. split; auto.
      exists (evs ++ [EClose]); simpl. rewrite T, <- app_assoc. split; [reflexivity|].
      rewrite count_occ_app, (proj1 (count_occ_not_In _ _ _) N). reflexivity.
Qed.

Lemma build_closes_server_once_witness :
  build (Env (Some (Error "EACCES")) (Ok 3333) (fun p => Ok p) (fun _ => [])
           (fun _ => Ok []) (fun _ _ => None)) (full_site ["/"]) empty_world
    = (Throw (Error "EACCES"), empty_world) /\
  (fst (build (Env None (Throw (Error "no free port")) (fun p => Ok p) (fun _ => [])
                 (fun _ => Ok []) (fun _ _ => None)) (full_site ["/"]) empty_world)
     = Throw (Error "no free port") /\
   trace (snd (build (Env None (Throw (Error "no free port")) (fun p => Ok p) (fun _ => [])
                        (fun _ => Ok []) (fun _ _ => None)) (full_site ["/"]) empty_world))
     = [ERimraf "dist"; ECreateServer]) /\
  (let (r, w') := build env_ok (full_site ["/"]) empty_world in
   r = fst (build_try env_ok (full_site ["/"]) 3333
              (World [ERimraf "dist"; ECreateServer; EListen 3333] [] [])) /\
   exists evs, trace w' = [ERimraf "dist"; ECreateServer; EListen 3333] ++ evs
               /\ count_occ event_eq_dec evs EClose = 1).
Proof.
  split; [|split].
  - apply (build_closes_server_once
             (Env (Some (Error "EACCES")) (Ok 3333) (fun p => Ok p) (fun _ => [])
                (fun _ => Ok []) (fun _ _ => None)) (full_site ["/"]) empty_world).
    reflexivity.
  - apply (build_closes_server_once
             (Env None (Throw (Error "no free port")) (fun p => Ok p) (fun _ => [])
                (fun _ => Ok []) (fun _ _ => None)) (full_site ["/"]) empty_world);
      reflexivity.
  - apply (proj2 (proj2 (build_closes_server_once env_ok (full_site ["/"]) empty_world))
             3333 (World [ERimraf "dist"; ECreateServer; EListen 3333] [] [])).
    reflexivity.
Defined.

(** When [getPort] rejects, the server created by [createServer] is never
    closed and the rejection reaches the caller. *)
Lemma build_port_failure_server_not_closed :
  let E := Env None (Throw (Error "no free port")) (fun p => Ok p) (fun _ => [])
                (fun _ => Ok []) (fun _ _ => None) in
  let (r, w') := build E (full_site ["/"]) empty_world in
  r = Throw (Error "no free port") /\ In ECreateServer (trace w') /\
  count_occ event_eq_dec (trace w') EClose = 0.
Proof. vm_compute. repeat split; auto. Qed.

(** ** C2: the cleaning phase *)

(** C2: with [config.outdir = "public"], the first effect of [build] is the
    removal of ["dist"]; a stale page under ["public"] survives a successful
    build while ["dist"] is emptied. *)
Theorem build_cleans_dist_not_outdir :
  let config := site_config "public"
                  [bundler_plugin; content_plugin;
                   renderer_plugin ["/"] [RenderedFile "index.html" "<html>"]] in
  let w0 := World [] [] [("public/stale.html", "old"); ("dist/app.js", "x")] in
  let (r, w') := build env_ok config w0 in
  r = Ok tt /\ hd_error (trace w') = Some (ERimraf "dist") /\
  In ("public/stale.html", "old") (disk w') /\ ~ In ("dist/app.js", "x") (disk w').
Proof.
  vm_compute. split; [reflexivity|]. split; [reflexivity|]. split.
  - tauto.
  - intros H; repeat (destruct H as [H|H]; [discriminate H|]); exact H.
Qed.

(** ** C3: the content store *)

Lemma processFile_call_run E f w :
  processFile_call E f w =
    (Ok (match processFile E f with Ok _ => Ok tt | Throw e => Throw e end),
     World (trace w ++ [EProcessFile f]) (db w ++ records_of E f) (disk w)).
Proof.
  unfold processFile_call, records_of, bind, emit, get_db, set_db, ret; simpl.
  destruct (processFile E f); simpl; rewrite ?app_nil_r; reflexivity.
Qed.


Lemma promise_all_world {A} (rs : list (result A)) w : snd (promise_all rs w) = w.
Proof. induction rs as [|[a|e] rs IH]; simpl; auto. Qed.




(** ** The shape of a run of [build] *)

Lemma build_run E config w :
  let (r, w') := build E config w in
  (exists e, (cleaning E;; serverStart E) w = (Throw e, w') /\ r = Throw e) \/
  (exists port w1, (cleaning E;; serverStart E) w = (Ok port, w1) /\
     let (rb, wb) := build_try E config port w1 in
     r = rb /\
     w' = match rb with
          | Ok _ => wb
          | Throw _ => World (trace wb ++ [EClose]) (db wb) (disk wb)
          end).
Proof.
  unfold build, try_catch, runningServer_close, bind.
  destruct (cleaning E w) as [[[]|e] wc].
  2: { left; exists e; auto. }
  destruct (serverStart E wc) as [[port|e] ws].
  2: { left; exists e; auto. }
  destruct (build_try E config port ws) as [[u|e] wb] eqn:Eb;
    right; exists port, ws; rewrite Eb; auto.
Qed.

Lemma cleaning_serverStart_early E :
  appends early_event (cleaning E;; serverStart E).
Proof. apply appends_bind; [apply cleaning_early | intros; apply serverStart_early]. Qed.

Lemma select_has_cap {X} (cap : Plugin.t -> option X) ps p :
  first_with cap ps = Some p -> exists c, cap p = Some c.
Proof.
  unfold first_with. induction ps as [|q qs IH]; simpl; [discriminate|].
  destruct (cap q) eqn:Eq; simpl; auto.
  intros H; injection H as <-; eauto.
Qed.

Lemma bundling_missing E config w :
  bundler_missing (plugins config) = true ->
  fst (bundling E config w) =
    match fst (beforeBuildHooks E config w) with
    | Ok _ => Throw err_bundler_build
    | Throw e => Throw e
    end.
Proof.
  unfold bundler_missing, bundling. intros Hm. cbv zeta. unfold bind at 1.
  destruct (beforeBuildHooks E config w) as [[u|e] w1]; simpl; auto.
  destruct (selectBundler (plugins config)) as [b|]; auto.
  destruct (Plugin.build b); [discriminate | reflexivity].
Qed.

Lemma prerendering_missing E config assets app w :
  renderer_missing (plugins config) || resolver_missing (plugins config) = true ->
  prerendering E config assets app w =
    (Throw (if renderer_missing (plugins config) then err_getRoutes else err_resolveURLs), w).
Proof.
  unfold renderer_missing, resolver_missing, prerendering. intros Hm.
  destruct (selectRenderer (plugins config)) as [p|] eqn:Er; simpl in *; auto.
  destruct (select_has_cap _ _ _ Er) as [g Hg]; rewrite Hg.
  destruct (selectUrlsResolver (plugins config)) as [q|] eqn:Eq; simpl in *; auto.
  discriminate.
Qed.

Lemma early_not_fanout ev : early_event ev -> not_fanout ev.
Proof. unfold not_fanout; destruct ev; simpl; tauto. Qed.

Ltac early_trace lem H :=
  let evs := fresh "evs" in let T := fresh "T" in let F := fresh "F" in
  destruct (appends_run _ _ _ _ _ (appends_mono _ _ _ early_not_fanout lem) H)
    as [evs [T F]].

(** C4 (amended): when no plugin has [buildForPrerendering] (or the first
    one lacks [build]), or no plugin has [getRoutes], or none has
    [resolveURLs], [build] throws before the fan-out: no [renderStatic]
    call and no page write happens.  Once the server is listening, the error
    is the one naming the missing role unless an earlier phase fails first:
    for the bundler, a [beforeBuild] hook; for the renderer ([getRoutes],
    checked before [resolveURLs]) and the URL resolver, any failure of the
    bundling phases or of ingestion (such as a missing transform or
    collector plugin). *)
Theorem build_fails_before_fanout_without_roles E config w :
  bundler_missing (plugins config) || renderer_missing (plugins config)
    || resolver_missing (plugins config) = true ->
  let (r, w') := build E config w in
  (exists e, r = Throw e) /\
  (exists evs, trace w' = trace w ++ evs /\ Forall not_fanout evs) /\
  (forall port w1, (cleaning E;; serverStart E) w = (Ok port, w1) ->
     (bundler_missing (plugins config) = true ->
        r = match fst (beforeBuildHooks E config w1) with
            | Ok _ => Throw err_bundler_build
            | Throw e => Throw e
            end) /\
     (bundler_missing (plugins config) = false ->
        r = match fst ((bundling E config;; getContent E config) w1) with
            | Ok _ => Throw (if renderer_missing (plugins config)
                             then err_getRoutes else err_resolveURLs)
            | Throw e => Throw e
            end)).
Proof.
  intros Hmiss. pose proof (build_run E config w) as Hrun.
  destruct (build E config w) as [r w'].
  destruct Hrun as [[e [Hs ->]] | [port [w1 [Hs Hb]]]].
  - early_trace (cleaning_serverStart_early E) Hs.
    split; [eauto|]. split; [eauto|].
    intros port w1 Hs'. rewrite Hs in Hs'. discriminate.
  - early_trace (cleaning_serverStart_early E) Hs.
    assert (Hthird : forall port' w1', (cleaning E;; serverStart E) w = (Ok port', w1') ->
                       port' = port /\ w1' = w1)
      by (intros port' w1' Hs'; rewrite Hs in Hs'; now injection Hs' as -> ->).
    destruct (build_try E config port w1) as [rb wb] eqn:Ht.
    destruct Hb as [-> ->].
    unfold build_try, bind in Ht.
    pose proof (bundling_missing E config w1) as Hbm.
    destruct (bundling E config w1) as [[aa|e] w2] eqn:H2.
    + early_trace (bundling_early E config) H2.
      assert (Hnb : bundler_missing (plugins config) = false).
      { destruct (bundler_missing (plugins config)); auto.
        specialize (Hbm eq_refl); simpl in Hbm.
        destruct (fst (beforeBuildHooks E config w1)); discriminate. }
      rewrite Hnb in Hmiss; simpl in Hmiss.
      destruct (getContent E config w2) as [[u|e] w3] eqn:H3.
      * early_trace (getContent_early E config) H3.
        rewrite (prerendering_missing E config (fst aa) (snd aa) w3 Hmiss) in Ht.
        injection Ht as <- <-.
        split; [eauto|]. split.
        { exists (evs ++ evs0 ++ evs1 ++ [EClose]). simpl.
          rewrite T1, T0, T, !app_assoc. split; auto.
          rewrite !Forall_app; repeat split; auto. constructor; [unfold not_fanout; simpl; tauto | constructor]. }
        intros port' w1' Hs'. destruct (Hthird _ _ Hs') as [-> ->].
        split; [congruence|]. intros _. unfold bind. rewrite H2, H3. reflexivity.
      * injection Ht as <- <-.
        early_trace (getContent_early E config) H3.
        split; [eauto|]. split.
        { exists (evs ++ evs0 ++ evs1 ++ [EClose]). simpl.
          rewrite T1, T0, T, !app_assoc. split; auto.
          rewrite !Forall_app; repeat split; auto. constructor; [unfold not_fanout; simpl; tauto | constructor]. }
        intros port' w1' Hs'. destruct (Hthird _ _ Hs') as [-> ->].
        split; [congruence|]. intros _. unfold bind. rewrite H2, H3. reflexivity.
    + injection Ht as <- <-.
      early_trace (bundling_early E config) H2.
      split; [eauto|]. split.
      { exists (evs ++ evs0 ++ [EClose]). simpl.
        rewrite T0, T, !app_assoc. split; auto.
        rewrite !Forall_app; repeat split; auto. constructor; [unfold not_fanout; simpl; tauto | constructor]. }
      intros port' w1' Hs'. destruct (Hthird _ _ Hs') as [-> ->].
      split.
      * intros Hm. specialize (Hbm Hm). simpl in Hbm.
        destruct (fst (beforeBuildHooks E config w1)); congruence.
      * intros _. unfold bind. rewrite H2. reflexivity.
Qed.

Lemma build_fails_before_fanout_without_roles_witness :
  let config := site_config "dist" [bundler_plugin; content_plugin] in
  let (r, w') := build env_ok config empty_world in
  (exists e, r = Throw e) /\
  (exists evs, trace w' = trace empty_world ++ evs /\ Forall not_fanout evs) /\
  (forall port w1, (cleaning env_ok;; serverStart env_ok) empty_world = (Ok port, w1) ->
     (bundler_missing (plugins config) = true ->
        r = match fst (beforeBuildHooks env_ok config w1) with
            | Ok _ => Throw err_bundler_build
            | Throw e => Throw e
            end) /\
     (bundler_missing (plugins config) = false ->
        r = match fst ((bundling env_ok config;; getContent env_ok config) w1) with
            | Ok _ => Throw (if renderer_missing (plugins config)
                             then err_getRoutes else err_resolveURLs)
            | Throw e => Throw e
            end)).
Proof.
  apply (build_fails_before_fanout_without_roles env_ok
           (site_config "dist" [bundler_plugin; content_plugin]) empty_world).
  reflexivity.
Defined.

(** Without a renderer, and without a transform plugin, the build reports
    the missing transform plugin, not the missing renderer. *)
Lemma build_missing_renderer_reports_transform :
  renderer_missing [bundler_plugin] = true /\
  fst (build env_ok (site_config "dist" [bundler_plugin]) empty_world) = Throw err_transform.
Proof. split; reflexivity. Qed.

(** ** C5: missing transform or collector plugins *)












(** ** C6: the bounded fan-out *)

(** C6: in the scheduling of [pMap] with the concurrency [50] that [build]
    passes, no reachable state has more than 50 mapper calls (each a
    [renderStatic] and its writes) in flight; and when no mapper call fails,
    every run ends, and ends with the map resolved after the mapper call of
    every URL of the list fulfilled. *)
Theorem prerender_fanout_bounded_and_complete (urls : list string)
    (mapper : string -> option exn) :
  (forall s, PMap.reachable mapper (PMap.init prerender_concurrency urls) s ->
     length (PMap.inflight s) <= prerender_concurrency) /\
  ((forall u, In u urls -> mapper u = None) ->
     PMap.completes mapper urls (PMap.init prerender_concurrency urls)).
Proof.
  split.
  - intros s Hr. apply (reachable_bound mapper prerender_concurrency _ _ Hr).
    apply start_bound; simpl; lia.
  - intros Hok. apply live_completes; auto.
    apply init_live. unfold prerender_concurrency; lia.
Qed.

Lemma prerender_fanout_bounded_and_complete_witness :
  PMap.completes (fun _ => None) ["/"; "/about"; "/blog"]
    (PMap.init prerender_concurrency ["/"; "/about"; "/blog"]).
Proof.
  apply (proj2 (prerender_fanout_bounded_and_complete ["/"; "/about"; "/blog"]
                  (fun _ => None))).
  intros; reflexivity.
Defined.

(** ** C7: where the rendered files go *)

Lemma appends_grows P {A} (m : M A) w ev :
  appends P m -> In ev (trace w) -> In ev (trace (snd (m w))).
Proof.
  intros Hm Hin. destruct (Hm w) as [evs [T _]]. rewrite T. apply in_or_app; auto.
Qed.

Lemma writeFile_call_settles E p c w :
  exists r, writeFile_call E p c w = (Ok r, snd (writeFile_call E p c w)).
Proof. unfold writeFile_call. destruct (writeFile E p c); eexists; reflexivity. Qed.

Lemma write_files_cons E outdir g rest q w :
  decodeURIComponent (rf_path g) = Some q ->
  exists w1,
    (writeFile E (path_join [outdir; q]) (rf_contents g) = None ->
       In (EWrite (path_join [outdir; q]) (rf_contents g)) (trace w1)) /\
    snd (write_files E outdir (g :: rest) w) = snd (write_files E outdir rest w1).
Proof.
  intros Hq. exists (snd (writeFile_call E (path_join [outdir; q]) (rf_contents g) w)).
  split.
  - intros Ew. unfold writeFile_call. rewrite Ew. simpl.
    apply in_or_app; right; now left.
  - simpl. rewrite Hq. unfold bind at 1.
    destruct (writeFile_call_settles E (path_join [outdir; q]) (rf_contents g) w) as [r ->].
    unfold bind. destruct (write_files E outdir rest _) as [[rs|e'] w2]; reflexivity.
Qed.

Lemma write_files_writes E outdir pre f post p w :
  Forall (fun g => decodeURIComponent (rf_path g) <> None) pre ->
  decodeURIComponent (rf_path f) = Some p ->
  writeFile E (path_join [outdir; p]) (rf_contents f) = None ->
  In (EWrite (path_join [outdir; p]) (rf_contents f))
     (trace (snd (write_files E outdir (pre ++ f :: post) w))).
Proof.
  intros Hpre Hp Hw. revert w.
  induction Hpre as [|g pre' Hg Hpre' IH]; intros w; rewrite ?app_nil_l, <- ?app_comm_cons.
  - destruct (write_files_cons E outdir f post p w Hp) as [w1 [Hin Heq]].
    rewrite Heq. apply (appends_grows _ _ _ _ (write_files_fanout E outdir post)).
    auto.
  - destruct (decodeURIComponent (rf_path g)) as [q|] eqn:Eq; [|congruence].
    destruct (write_files_cons E outdir g (pre' ++ f :: post) q w Eq) as [w1 [_ Heq]].
    rewrite Heq. apply IH.
Qed.

(** C7 (amended): for a location whose [renderStatic] returns [files], a
    file [f] of the list is written at [path.join(outdir,
    decodeURIComponent(f.path))] when its path and the paths of the files
    before it decode (and that write itself succeeds); a path that is not a
    valid percent-encoding throws a [URIError] and the files from it on are
    not written. *)
Theorem prerender_writes_decoded_paths E config renderer rs app assets location w
    files pre f post p :
  Plugin.renderStatic renderer = Some rs ->
  rs app assets location (db w) = Ok files ->
  files = pre ++ f :: post ->
  Forall (fun g => decodeURIComponent (rf_path g) <> None) pre ->
  decodeURIComponent (rf_path f) = Some p ->
  writeFile E (path_join [outdir config; p]) (rf_contents f) = None ->
  In (EWrite (path_join [outdir config; p]) (rf_contents f))
     (trace (snd (prerenderFileAndDependencies E config (Some renderer)
                    app assets location w))).
Proof.
  intros Hr Hrs Hf Hpre Hp Hw. unfold prerenderFileAndDependencies. rewrite Hr.
  unfold bind at 1, emit. unfold bind at 1, get_db. simpl. rewrite Hrs.
  unfold bind at 1, lift, ret. unfold bind.
  pose proof (write_files_writes E (outdir config) pre f post p
                (World (trace w ++ [ERenderStatic location]) (db w) (disk w)) Hpre Hp Hw)
    as Hin.
  rewrite <- Hf in Hin.
  destruct (write_files E (outdir config) files _) as [[settled|e] w2]; simpl in *; auto.
  rewrite promise_all_world. exact Hin.
Qed.

Lemma prerender_writes_decoded_paths_witness :
  path_join ["dist"; "a b.html"] = "dist/a b.html" /\
  In (EWrite (path_join ["dist"; "a b.html"]) "<html>")
     (trace (snd (prerenderFileAndDependencies env_ok
                    (site_config "dist" [renderer_plugin ["/"] [RenderedFile "a%20b.html" "<html>"]])
                    (Some (renderer_plugin ["/"] [RenderedFile "a%20b.html" "<html>"]))
                    "app" "assets" "/" empty_world))).
Proof.
  split; [reflexivity|].
  apply (prerender_writes_decoded_paths env_ok
           (site_config "dist" [renderer_plugin ["/"] [RenderedFile "a%20b.html" "<html>"]])
           (renderer_plugin ["/"] [RenderedFile "a%20b.html" "<html>"])
           (fun _ _ _ _ => Ok [RenderedFile "a%20b.html" "<html>"])
           "app" "assets" "/" empty_world [RenderedFile "a%20b.html" "<html>"]
           [] (RenderedFile "a%20b.html" "<html>") [] "a b.html");
    [reflexivity | reflexivity | reflexivity | constructor | reflexivity | reflexivity].
Defined.

(** A rendered file named [100%.html] is written nowhere: decoding its path
    throws and the build fails. *)
Lemma build_malformed_escape_not_written :
  let config := site_config "dist"
                  [bundler_plugin; content_plugin;
                   renderer_plugin ["/"] [RenderedFile "100%.html" "<p>"]] in
  let (r, w') := build env_ok config empty_world in
  r = Throw URIError /\ disk w' = [] /\ In (ERenderStatic "/") (trace w').
Proof. vm_compute. repeat split; tauto. Qed.

(** ** Reaching the route resolution *)

Lemma early_resolved_free ev : early_event ev -> resolved_free ev.
Proof. destruct ev; simpl; tauto. Qed.

Lemma fanout_resolved_free ev : fanout_event ev -> resolved_free ev.
Proof. destruct ev; simpl; tauto. Qed.

Lemma Forall_resolved_free evs urls : Forall resolved_free evs -> ~ In (EResolved urls) evs.
Proof. intros F Hin. rewrite Forall_forall in F. exact (F _ Hin). Qed.

Lemma Forall_early_resolved_free evs :
  Forall early_event evs -> Forall resolved_free evs.
Proof. apply Forall_impl, early_resolved_free. Qed.

(** [prerendering] either stops before [debug(urls)], or logs the resolved
    [urls] (and the warning when there are none) and then runs the fan-out. *)
Lemma prerendering_run E config assets app w :
  let (r, w') := prerendering E config assets app w in
  (r <> Ok tt /\ w' = w) \/
  (exists urls w4,
     trace w4 = trace w ++ EResolved urls :: no_urls_log urls /\
     db w4 = db w /\ disk w4 = disk w /\
     pMap urls (fun location =>
                  prerenderFileAndDependencies E config
                    (selectRenderer (plugins config)) app assets location)
       prerender_concurrency w4 = (r, w')).
Proof.
  destruct (prerendering E config assets app w) as [r w'] eqn:H.
  unfold prerendering in H. cbv zeta in H.
  destruct (option_map Plugin.getRoutes (selectRenderer (plugins config))) as [[g|]|];
    [| injection H as <- <-; left; split; [discriminate | reflexivity] ..].
  destruct (option_map Plugin.resolveURLs (selectUrlsResolver (plugins config))) as [[res|]|];
    [| injection H as <- <-; left; split; [discriminate | reflexivity] ..].
  unfold bind at 1, get_db in H. unfold bind at 1, lift in H.
  destruct (res (g app) (db w)) as [urls|e];
    [| injection H as <- <-; left; split; [discriminate | reflexivity]].
  right. exists urls.
  unfold ret, bind at 1, emit in H. unfold bind in H.
  destruct urls as [|u us]; simpl in H.
  - exists (World ((trace w ++ [EResolved []]) ++ [ELog no_urls_warning]) (db w) (disk w)).
    split; [simpl; rewrite <- app_assoc; reflexivity | auto].
  - exists (World (trace w ++ [EResolved (u :: us)]) (db w) (disk w)).
    simpl. auto.
Qed.

Ltac no_resolved Hin :=
  exfalso; refine (Forall_resolved_free _ _ _ Hin);
  rewrite ?Forall_app; repeat split;
  first [ apply Forall_early_resolved_free; assumption
        | apply (Forall_impl _ fanout_resolved_free); assumption
        | repeat constructor ].

Ltac suffix_eq Ht :=
  simpl in Ht; rewrite <- ?app_assoc in Ht; apply app_inv_head in Ht; subst.

(** A run of [build] whose trace shows [debug(urls)] went through every
    phase up to the route resolution, which returned [urls]; the rest of the
    run is the fan-out over [urls], followed by [runningServer.close()]
    whether the fan-out succeeds or throws. *)
Lemma build_reaches_resolution E config w r w' evs urls :
  build E config w = (r, w') ->
  trace w' = trace w ++ evs ->
  In (EResolved urls) evs ->
  exists pre aa w4 wp,
    Forall early_event pre /\
    trace w4 = trace w ++ pre ++ EResolved urls :: no_urls_log urls /\
    pMap urls (fun location =>
                 prerenderFileAndDependencies E config
                   (selectRenderer (plugins config)) (snd aa) (fst aa) location)
      prerender_concurrency w4 = (r, wp) /\
    w' = World (trace wp ++ [EClose]) (db wp) (disk wp).
Proof.
  intros Hb Ht Hin. pose proof (build_run E config w) as Hrun. rewrite Hb in Hrun.
  destruct Hrun as [[e [Hs ->]] | [port [w1 [Hs Hbt]]]].
  - destruct (appends_run _ _ _ _ _ (cleaning_serverStart_early E) Hs) as [evs0 [T0 F0]].
    rewrite T0 in Ht. suffix_eq Ht. no_resolved Hin.
  - destruct (appends_run _ _ _ _ _ (cleaning_serverStart_early E) Hs) as [evs0 [T0 F0]].
    destruct (build_try E config port w1) as [rb wb] eqn:Hbt_eq.
    destruct Hbt as [-> Hw']. unfold build_try, bind in Hbt_eq.
    destruct (bundling E config w1) as [[aa|e] w2] eqn:H2;
      destruct (appends_run _ _ _ _ _ (bundling_early E config) H2) as [evs1 [T1 F1]].
    2: { injection Hbt_eq as <- <-. subst w'. simpl in Ht.
         rewrite T1, T0 in Ht. suffix_eq Ht. no_resolved Hin. }
    destruct (getContent E config w2) as [[u|e] w3] eqn:H3;
      destruct (appends_run _ _ _ _ _ (getContent_early E config) H3) as [evs2 [T2 F2]].
    2: { injection Hbt_eq as <- <-. subst w'. simpl in Ht.
         rewrite T2, T1, T0 in Ht. suffix_eq Ht. no_resolved Hin. }
    pose proof (prerendering_run E config (fst aa) (snd aa) w3) as Hp.
    destruct (prerendering E config (fst aa) (snd aa) w3) as [rp wp] eqn:H4.
    destruct Hp as [[Hne ->] | [urls0 [w4 [T4 [_ [_ Hmap]]]]]].
    + destruct rp as [[]|e]; [congruence|].
      injection Hbt_eq as <- <-. subst w'. simpl in Ht.
      rewrite T2, T1, T0 in Ht. suffix_eq Ht. no_resolved Hin.
    + destruct (appends_run _ _ _ _ _
                  (appends_pMap _ _ _ prerender_concurrency
                     (fun location => prerenderFileAndDependencies_fanout E config
                        (selectRenderer (plugins config)) (snd aa) (fst aa) location))
                  Hmap) as [evs3 [T3 F3]].
      assert (Hw'' : rb = rp /\ w' = World (trace wp ++ [EClose]) (db wp) (disk wp)).
      { destruct rp as [[]|e]; unfold runningServer_close, emit in Hbt_eq;
          injection Hbt_eq as <- <-; auto. }
      clear Hw' Hbt_eq. destruct Hw'' as [-> ->]. simpl in Ht.
      rewrite T3, T4, T2, T1, T0 in Ht. suffix_eq Ht.
      assert (urls0 = urls).
      { rewrite !in_app_iff in Hin.
        destruct Hin as [Hin|[Hin|[Hin|[Hin|[Hin|Hin]]]]].
        - no_resolved Hin.
        - no_resolved Hin.
        - no_resolved Hin.
        - simpl in Hin. destruct Hin as [Hin|Hin]; [congruence|].
          destruct urls0; simpl in Hin; [destruct Hin as [Hin|Hin]; [discriminate|]|]; contradiction.
        - no_resolved Hin.
        - destruct Hin as [Hin|Hin]; [discriminate | contradiction]. }
      subst urls0.
      exists (evs0 ++ evs1 ++ evs2), aa, w4, wp.
      rewrite T4, T2, T1, T0, <- !app_assoc.
      split; [rewrite !Forall_app; auto|]. auto.
Qed.

(** ** C8: no URLs *)

(** C8: when [resolveURLs] returns the empty list (the run logs
    [debug([])]), [build] succeeds: after the route resolution it only logs
    the warning and closes the server, so the run has no [renderStatic] call
    and no page write. *)
Theorem build_empty_urls_succeeds E config w r w' evs :
  build E config w = (r, w') ->
  trace w' = trace w ++ evs ->
  In (EResolved []) evs ->
  r = Ok tt /\
  (exists pre, Forall early_event pre /\
     evs = pre ++ [EResolved []; ELog no_urls_warning; EClose]) /\
  In (ELog no_urls_warning) evs /\
  Forall not_fanout evs.
Proof.
  intros Hb Ht Hin.
  destruct (build_reaches_resolution E config w r w' evs [] Hb Ht Hin)
    as [pre [aa [w4 [wp [F [T4 [Hmap ->]]]]]]].
  simpl in Hmap. unfold ret in Hmap. injection Hmap as <- <-.
  simpl in Ht. rewrite T4 in Ht. suffix_eq Ht.
  split; [reflexivity|]. split; [eauto|]. split.
  - apply in_or_app; right; simpl; auto.
  - apply Forall_app; split.
    + apply (Forall_impl _ early_not_fanout F).
    + repeat constructor; unfold not_fanout; simpl; tauto.
Qed.

Lemma build_empty_urls_succeeds_witness :
  fst (build env_ok (full_site []) empty_world) = Ok tt /\
  (exists pre, Forall early_event pre /\
     [ERimraf "dist"; ECreateServer; EListen 3333; EBuild "bundler";
      EBuildForPrerendering "bundler"; EDestroy; EProcessFile "index.md";
      EResolved []; ELog no_urls_warning; EClose]
     = pre ++ [EResolved []; ELog no_urls_warning; EClose]) /\
  In (ELog no_urls_warning)
     [ERimraf "dist"; ECreateServer; EListen 3333; EBuild "bundler";
      EBuildForPrerendering "bundler"; EDestroy; EProcessFile "index.md";
      EResolved []; ELog no_urls_warning; EClose] /\
  Forall not_fanout
     [ERimraf "dist"; ECreateServer; EListen 3333; EBuild "bundler";
      EBuildForPrerendering "bundler"; EDestroy; EProcessFile "index.md";
      EResolved []; ELog no_urls_warning; EClose].
Proof.
  apply (build_empty_urls_succeeds env_ok (full_site []) empty_world
           (fst (build env_ok (full_site []) empty_world))
           (snd (build env_ok (full_site []) empty_world))).
  - apply surjective_pairing.
  - vm_compute. reflexivity.
  - simpl. do 7 right. left. reflexivity.
Defined.

(** ** C10: [renderStatic] is looked up per URL *)

(** C10: when the first plugin with [getRoutes] has no [renderStatic], a
    run that reaches the route resolution with [urls] (the earlier phases
    do not look at [renderStatic]) fails with the [renderStatic] error right
    after it, in the first mapper call, when [urls] is not empty, and
    succeeds when it is empty; in both cases the server is closed and no
    [renderStatic] call or page write happens. *)
Theorem build_checks_renderStatic_in_fanout E config w p r w' evs urls :
  selectRenderer (plugins config) = Some p ->
  Plugin.renderStatic p = None ->
  build E config w = (r, w') ->
  trace w' = trace w ++ evs ->
  In (EResolved urls) evs ->
  r = match urls with [] => Ok tt | _ => Throw err_renderStatic end /\
  (exists pre, Forall early_event pre /\
     evs = pre ++ EResolved urls :: no_urls_log urls ++ [EClose]).
Proof.
  intros Hsel Hrs Hb Ht Hin.
  destruct (build_reaches_resolution E config w r w' evs urls Hb Ht Hin)
    as [pre [aa [w4 [wp [F [T4 [Hmap ->]]]]]]].
  rewrite Hsel in Hmap.
  assert (Hrw : r = match urls with [] => Ok tt | _ => Throw err_renderStatic end /\ wp = w4).
  { destruct urls as [|u us]; simpl in Hmap.
    - unfold ret in Hmap. injection Hmap as <- <-. auto.
    - unfold bind, prerenderFileAndDependencies in Hmap. rewrite Hrs in Hmap.
      unfold throw in Hmap. injection Hmap as <- <-. auto. }
  destruct Hrw as [-> ->]. split; [reflexivity|].
  simpl in Ht. rewrite T4 in Ht. suffix_eq Ht. eauto.
Qed.

Lemma build_checks_renderStatic_in_fanout_witness :
  fst (build env_ok
         (site_config "dist" [bundler_plugin; content_plugin; routes_only_plugin ["/"]])
         empty_world) = Throw err_renderStatic /\
  (exists pre, Forall early_event pre /\
     [ERimraf "dist"; ECreateServer; EListen 3333; EBuild "bundler";
      EBuildForPrerendering "bundler"; EDestroy; EProcessFile "index.md";
      EResolved ["/"]; EClose]
     = pre ++ EResolved ["/"] :: no_urls_log ["/"] ++ [EClose]).
Proof.
  apply (build_checks_renderStatic_in_fanout env_ok
           (site_config "dist" [bundler_plugin; content_plugin; routes_only_plugin ["/"]])
           empty_world (routes_only_plugin ["/"])
           (fst (build env_ok (site_config "dist"
                   [bundler_plugin; content_plugin; routes_only_plugin ["/"]]) empty_world))
           (snd (build env_ok (site_config "dist"
                   [bundler_plugin; content_plugin; routes_only_plugin ["/"]]) empty_world))
           [ERimraf "dist"; ECreateServer; EListen 3333; EBuild "bundler";
            EBuildForPrerendering "bundler"; EDestroy; EProcessFile "index.md";
            EResolved ["/"]; EClose] ["/"]).
  - reflexivity.
  - reflexivity.
  - apply surjective_pairing.
  - vm_compute. reflexivity.
  - simpl. do 7 right. left. reflexivity.
Defined.

(** ** C9: choosing the bundler *)

Lemma bundling_throws_build_try E config port w e :
  fst (bundling E config w) = Throw e -> fst (build_try E config port w) = Throw e.
Proof.
  unfold build_try, bind. destruct (bundling E config w) as [[aa|e'] w2]; simpl.
  - discriminate.
  - congruence.
Qed.

(** C9 (amended): the bundler is the first plugin, in registration order,
    that has [buildForPrerendering] (so a plugin with only [build] is never
    chosen), and when no plugin has [buildForPrerendering], a run whose
    server started fails with the error naming [build], unless a
    [beforeBuild] hook rejects first, in which case it fails with that
    hook's error. *)
Theorem build_selects_first_buildForPrerendering E config w :
  match selectBundler (plugins config) with
  | Some b => exists pre post,
      plugins config = pre ++ b :: post /\
      Plugin.buildForPrerendering b <> None /\
      Forall (fun q => Plugin.buildForPrerendering q = None) pre
  | None => Forall (fun q => Plugin.buildForPrerendering q = None) (plugins config)
  end /\
  (selectBundler (plugins config) = None ->
   forall port w1, (cleaning E;; serverStart E) w = (Ok port, w1) ->
   fst (build E config w) =
     match fst (beforeBuildHooks E config w1) with
     | Ok _ => Throw err_bundler_build
     | Throw e => Throw e
     end).
Proof.
  split.
  - unfold selectBundler, first_with.
    induction (plugins config) as [|q qs IH]; simpl; [constructor|].
    destruct (Plugin.buildForPrerendering q) eqn:Eq; simpl.
    + exists [], qs. rewrite Eq. repeat split; [discriminate | constructor].
    + destruct (hd_error (filter _ qs)) as [b|].
      * destruct IH as [pre [post [-> [Hb F]]]].
        exists (q :: pre), post. repeat split; auto.
      * constructor; auto.
  - intros Hnone port w1 Hs.
    assert (Hm : bundler_missing (plugins config) = true)
      by (unfold bundler_missing; rewrite Hnone; reflexivity).
    pose proof (bundling_missing E config w1 Hm) as Hbm.
    pose proof (build_run E config w) as Hrun.
    destruct (build E config w) as [r w'].
    destruct Hrun as [[e [Hs' _]] | [port' [w1' [Hs' Hb]]]];
      rewrite Hs in Hs'; [discriminate|].
    injection Hs' as <- <-.
    destruct (build_try E config port w1) as [rb wb] eqn:Ht.
    destruct Hb as [-> _]. simpl.
    destruct (fst (beforeBuildHooks E config w1)) as [u|e];
      pose proof (bundling_throws_build_try E config port w1 _ Hbm) as Hbt;
      rewrite Ht in Hbt; exact Hbt.
Qed.

Lemma build_selects_first_buildForPrerendering_witness :
  Forall (fun q => Plugin.buildForPrerendering q = None)
    [build_only_plugin; content_plugin; renderer_plugin ["/"] []] /\
  fst (build env_ok
         (site_config "dist" [build_only_plugin; content_plugin; renderer_plugin ["/"] []])
         empty_world) = Throw err_bundler_build.
Proof.
  pose proof (build_selects_first_buildForPrerendering env_ok
     (site_config "dist" [build_only_plugin; content_plugin; renderer_plugin ["/"] []])
     empty_world) as [H1 H2].
  split; [exact H1|].
  rewrite (H2 eq_refl 3333 (World [ERimraf "dist"; ECreateServer; EListen 3333] [] [])
             eq_refl).
  reflexivity.
Defined.

(** With a plugin that has only [build] and no plugin with
    [buildForPrerendering], a rejecting [beforeBuild] hook makes the build
    fail with the hook's error instead of the one naming [build]. *)
Lemma build_failing_hook_preempts_bundler_error :
  let config := site_config "dist"
                  [build_only_plugin; failing_hook_plugin; content_plugin;
                   renderer_plugin ["/"] []] in
  selectBundler (plugins config) = None /\
  Plugin.build build_only_plugin <> None /\
  fst (build env_ok config empty_world) = Throw (Error "hook failed").
Proof. cbv zeta. split; [reflexivity | split; [discriminate | reflexivity]]. Qed.

(** ** Further properties: [decodeURIComponent] *)

Lemma list_ascii_of_string_app a b :
  list_ascii_of_string (a ++ b) = list_ascii_of_string a ++ list_ascii_of_string b.
Proof. induction a as [|c a IH]; simpl; congruence. Qed.

Lemma string_of_list_ascii_app a b :
  string_of_list_ascii (a ++ b) = (string_of_list_ascii a ++ string_of_list_ascii b)%string.
Proof. induction a as [|c a IH]; simpl; congruence. Qed.

Lemma escape_byte_length cs b r :
  escape_byte cs = Some (b, r) -> length cs = 3 + length r.
Proof.
  unfold escape_byte. destruct cs as [|c [|h [|l rest]]]; try discriminate.
  destruct (Ascii.eqb c "%"%char); [|discriminate].
  destruct (hex_digit h), (hex_digit l); try discriminate.
  intros H; injection H as _ <-; reflexivity.
Qed.

Lemma read_continuations_length k cs bs r :
  read_continuations k cs = Some (bs, r) -> length r <= length cs.
Proof.
  revert cs bs. induction k as [|k IH]; intros cs bs H; cbn [read_continuations] in H |- *.
  - inversion H; subst; auto.
  - destruct (escape_byte cs) as [[b rest]|] eqn:Eb; [|discriminate].
    destruct ((128 <=? b) && (b <? 192)); [|discriminate].
    destruct (read_continuations k rest) as [[bs' r']|] eqn:Er; [|discriminate].
    inversion H; subst.
    apply escape_byte_length in Eb. apply IH in Er. lia.
Qed.

(** The fuel of [decode_go] does not matter once it covers the input. *)
Lemma decode_go_fuel f1 f2 cs :
  length cs <= f1 -> length cs <= f2 -> decode_go f1 cs = decode_go f2 cs.
Proof.
  revert f2 cs. induction f1 as [|f1 IH]; intros f2 cs H1 H2.
  - destruct cs; simpl in H1; [|lia]. destruct f2; reflexivity.
  - destruct f2 as [|f2]; [destruct cs; simpl in H2; [reflexivity | lia]|].
    destruct cs as [|c rest]; [reflexivity|]. simpl in H1, H2. cbn [decode_go].
    destruct (Ascii.eqb c "%"%char) eqn:Ec.
    + destruct (escape_byte (c :: rest)) as [[b r]|] eqn:Eb; [|reflexivity].
      pose proof (escape_byte_length _ _ _ Eb) as Lb. simpl in Lb.
      destruct (b <? 128); [rewrite (IH f2 r) by lia; reflexivity|].
      destruct (utf8_lead_length b <? 2); [reflexivity|].
      destruct (read_continuations (utf8_lead_length b - 1) r) as [[conts r2]|] eqn:Er;
        [|reflexivity].
      apply read_continuations_length in Er.
      destruct (utf8_valid _ _); [rewrite (IH f2 r2) by lia|]; reflexivity.
    + rewrite (IH f2 rest) by lia. reflexivity.
Qed.

Lemma escape_byte_app cs b r rest :
  escape_byte cs = Some (b, r) -> escape_byte (cs ++ rest) = Some (b, r ++ rest).
Proof.
  unfold escape_byte. destruct cs as [|c [|h [|l cs']]]; try discriminate. simpl.
  destruct (Ascii.eqb c "%"%char); [|discriminate].
  destruct (hex_digit h), (hex_digit l); try discriminate.
  intros H; injection H as <- <-; reflexivity.
Qed.

Lemma read_continuations_app k cs bs r rest :
  read_continuations k cs = Some (bs, r) ->
  read_continuations k (cs ++ rest) = Some (bs, r ++ rest).
Proof.
  revert cs bs. induction k as [|k IH]; intros cs bs H; cbn [read_continuations] in H |- *.
  - injection H as <- <-; reflexivity.
  - destruct (escape_byte cs) as [[b r0]|] eqn:Eb; [|discriminate].
    rewrite (escape_byte_app _ _ _ rest Eb).
    destruct ((128 <=? b) && (b <? 192)); [|discriminate].
    destruct (read_continuations k r0) as [[bs' r']|] eqn:Er; [|discriminate].
    injection H as <- <-. rewrite (IH _ _ Er). reflexivity.
Qed.

Lemma decode_go_app f a d b :
  length a <= f -> decode_go f a = Some d ->
  decode_go (length (a ++ b)) (a ++ b) =
    option_map (List.app d) (decode_go (length b) b).
Proof.
  revert a d. induction f as [|f IH]; intros a d Ha Hd.
  - destruct a; simpl in Ha; [|lia]. simpl in Hd. injection Hd as <-.
    simpl. destruct (decode_go (length b) b); reflexivity.
  - destruct a as [|c a'].
    + simpl in Hd. injection Hd as <-. simpl. destruct (decode_go (length b) b); reflexivity.
    + simpl in Ha. cbn [decode_go] in Hd.
      change ((c :: a') ++ b) with (c :: (a' ++ b)). cbn [length decode_go].
      destruct (Ascii.eqb c "%"%char) eqn:Ec.
      * destruct (escape_byte (c :: a')) as [[byte r]|] eqn:Eb; [|discriminate].
        change (c :: a' ++ b) with ((c :: a') ++ b).
        rewrite (escape_byte_app _ _ _ b Eb).
        pose proof (escape_byte_length _ _ _ Eb) as Lb. simpl in Lb.
        destruct (byte <? 128).
        -- destruct (decode_go f r) as [d'|] eqn:Ed; [|discriminate].
           simpl in Hd. injection Hd as <-.
           rewrite (decode_go_fuel (length (a' ++ b)) (length (r ++ b)) (r ++ b))
             by (rewrite !length_app; lia).
           rewrite (IH r d' ltac:(lia) Ed).
           destruct (decode_go (length b) b); reflexivity.
        -- destruct (utf8_lead_length byte <? 2); [discriminate|].
           destruct (read_continuations (utf8_lead_length byte - 1) r)
             as [[conts r2]|] eqn:Er; [|discriminate].
           rewrite (read_continuations_app _ _ _ _ b Er).
           apply read_continuations_length in Er as Lr.
           destruct (utf8_valid _ _); [|discriminate].
           destruct (decode_go f r2) as [d'|] eqn:Ed; [|discriminate].
           simpl in Hd. injection Hd as <-.
           rewrite (decode_go_fuel (length (a' ++ b)) (length (r2 ++ b)) (r2 ++ b))
             by (rewrite !length_app; lia).
           rewrite (IH r2 d' ltac:(lia) Ed).
           destruct (decode_go (length b) b); simpl; rewrite ?app_assoc; reflexivity.
      * destruct (decode_go f a') as [d'|] eqn:Ed; [|discriminate].
        simpl in Hd. injection Hd as <-.
        rewrite (IH a' d' ltac:(lia) Ed).
        destruct (decode_go (length b) b); reflexivity.
Qed.

(** Decoding works piece by piece: two strings that decode decode, put
    together, to the two decodings put together. *)
Theorem decodeURIComponent_app a b da db :
  decodeURIComponent a = Some da ->
  decodeURIComponent b = Some db ->
  decodeURIComponent (a ++ b) = Some (da ++ db)%string.
Proof.
  unfold decodeURIComponent. rewrite list_ascii_of_string_app.
  destruct (decode_go (length (list_ascii_of_string a)) (list_ascii_of_string a))
    as [la|] eqn:Ea; [|discriminate].
  destruct (decode_go (length (list_ascii_of_string b)) (list_ascii_of_string b))
    as [lb|] eqn:Eb; [|discriminate].
  simpl. intros Ha Hb. injection Ha as <-. injection Hb as <-.
  rewrite (decode_go_app _ _ _ _ (le_n _) Ea), Eb. simpl.
  rewrite string_of_list_ascii_app. reflexivity.
Qed.

Lemma decodeURIComponent_app_witness :
  decodeURIComponent "%C3%A9" = Some "é" /\
  decodeURIComponent "t%C3%A9.html" = Some "té.html" /\
  decodeURIComponent ("%C3%A9" ++ "t%C3%A9.html") = Some ("é" ++ "té.html")%string.
Proof.
  assert (H1 : decodeURIComponent "%C3%A9" = Some "é") by reflexivity.
  assert (H2 : decodeURIComponent "t%C3%A9.html" = Some "té.html") by reflexivity.
  split; [exact H1 | split; [exact H2 | exact (decodeURIComponent_app _ _ _ _ H1 H2)]].
Defined.

Lemma decode_go_no_percent f cs :
  length cs <= f -> ~ In "%"%char cs -> decode_go f cs = Some cs.
Proof.
  revert cs. induction f as [|f IH]; intros cs Hl Hn.
  - destruct cs; simpl in Hl; [reflexivity | lia].
  - destruct cs as [|c rest]; [reflexivity|]. cbn [decode_go].
    simpl in Hl, Hn.
    destruct (Ascii.eqb c "%"%char) eqn:Ec.
    + apply Ascii.eqb_eq in Ec. tauto.
    + rewrite IH by (lia || tauto). reflexivity.
Qed.

(** A string without [%] decodes to itself: a rendered file path with no
    escape is written under its own name. *)
Theorem decodeURIComponent_no_percent s :
  ~ In "%"%char (list_ascii_of_string s) -> decodeURIComponent s = Some s.
Proof.
  intros Hn. unfold decodeURIComponent.
  rewrite (decode_go_no_percent _ _ (le_n _) Hn). simpl.
  rewrite string_of_list_ascii_of_string. reflexivity.
Qed.

Lemma decodeURIComponent_no_percent_witness :
  decodeURIComponent "about/index.html" = Some "about/index.html".
Proof.
  apply decodeURIComponent_no_percent.
  intros H; simpl in H; repeat (destruct H as [H|H]; [discriminate H|]); exact H.
Defined.

Section BadEscape.
Variable lt : list ascii.
Hypothesis Hbad : forall h l rest, lt = h :: l :: rest -> hex_digit h = None \/ hex_digit l = None.

Lemma escape_byte_bad s b r :
  escape_byte (s ++ "%"%char :: lt) = Some (b, r) ->
  exists s2, r = s2 ++ "%"%char :: lt /\ length s2 + 3 = length s.
Proof.
  destruct s as [|c [|h [|l s2]]]; unfold escape_byte; simpl.
  - destruct lt as [|h [|l rest]] eqn:Elt; try discriminate.
    destruct (Hbad h l rest eq_refl) as [E|E]; rewrite E;
      [discriminate | destruct (hex_digit h); discriminate].
  - destruct lt; [discriminate|]. destruct (Ascii.eqb c "%"%char); discriminate.
  - destruct (Ascii.eqb c "%"%char); [|discriminate].
    destruct (hex_digit h); discriminate.
  - destruct (Ascii.eqb c "%"%char); [|discriminate].
    destruct (hex_digit h), (hex_digit l); try discriminate.
    intros H; inversion H; subst. exists s2; split; [reflexivity | simpl; lia].
Qed.

Lemma read_continuations_bad k s bs r :
  read_continuations k (s ++ "%"%char :: lt) = Some (bs, r) ->
  exists s2, r = s2 ++ "%"%char :: lt /\ length s2 <= length s.
Proof.
  revert s bs. induction k as [|k IH]; intros s bs H; cbn [read_continuations] in H.
  - inversion H; subst. exists s; auto.
  - destruct (escape_byte (s ++ "%"%char :: lt)) as [[b rest]|] eqn:Eb; [|discriminate].
    destruct (escape_byte_bad _ _ _ Eb) as [s1 [-> L1]].
    destruct ((128 <=? b) && (b <? 192)); [|discriminate].
    destruct (read_continuations k (s1 ++ "%"%char :: lt)) as [[bs' r']|] eqn:Er;
      [|discriminate].
    inversion H; subst.
    destruct (IH _ _ Er) as [s2 [-> L2]]. exists s2; split; [reflexivity | lia].
Qed.

Lemma decode_go_bad n : forall s f,
  length s <= n -> S (length s + length lt) <= f ->
  decode_go f (s ++ "%"%char :: lt) = None.
Proof.
  induction n as [|n IH]; intros s f Hs Hf;
    (destruct f as [|f]; [lia|]).
  - destruct s; simpl in Hs; [|lia]. rewrite app_nil_l; cbn [decode_go].
    rewrite ?Ascii.eqb_refl.
    destruct (escape_byte ("%"%char :: lt)) as [[b r]|] eqn:Eb; [|reflexivity].
    destruct (escape_byte_bad [] _ _ Eb) as [s2 [_ L]]. simpl in L. lia.
  - destruct s as [|c s'].
    + rewrite app_nil_l; cbn [decode_go]. rewrite ?Ascii.eqb_refl.
      destruct (escape_byte ("%"%char :: lt)) as [[b r]|] eqn:Eb; [|reflexivity].
      destruct (escape_byte_bad [] _ _ Eb) as [s2 [_ L]]. simpl in L. lia.
    + simpl in Hs, Hf. cbn [decode_go].
      change ((c :: s') ++ "%"%char :: lt) with (c :: (s' ++ "%"%char :: lt)).
      cbn [decode_go].
      destruct (Ascii.eqb c "%"%char).
      * change (c :: s' ++ "%"%char :: lt) with ((c :: s') ++ "%"%char :: lt).
        destruct (escape_byte ((c :: s') ++ "%"%char :: lt)) as [[b r]|] eqn:Eb;
          [|reflexivity].
        destruct (escape_byte_bad _ _ _ Eb) as [s2 [-> L]]. simpl in L.
        destruct (b <? 128).
        -- rewrite (IH s2 f) by (rewrite ?length_app; simpl; lia). reflexivity.
        -- destruct (utf8_lead_length b <? 2); [reflexivity|].
           destruct (read_continuations (utf8_lead_length b - 1) (s2 ++ "%"%char :: lt))
             as [[conts r2]|] eqn:Er; [|reflexivity].
           destruct (read_continuations_bad _ _ _ _ Er) as [s3 [-> L3]].
           destruct (utf8_valid _ _); [|reflexivity].
           rewrite (IH s3 f) by lia. reflexivity.
      * rewrite (IH s' f) by lia. reflexivity.
Qed.
End BadEscape.

(** A [%] that is not followed by two hexadecimal digits makes decoding
    throw, whatever comes before it: such a rendered file path ends the
    writes of its page with a [URIError]. *)
Theorem decodeURIComponent_bad_escape s t :
  starts_with_hex2 t = false ->
  decodeURIComponent (s ++ String "%" t) = None.
Proof.
  intros Ht. unfold decodeURIComponent. rewrite list_ascii_of_string_app. simpl.
  rewrite (decode_go_bad (list_ascii_of_string t)) with (n := length (list_ascii_of_string s)).
  - reflexivity.
  - intros h l rest E. destruct t as [|h' [|l' t']]; try discriminate.
    simpl in E. inversion E; subst. simpl in Ht.
    destruct (hex_digit h), (hex_digit l); auto; discriminate.
  - lia.
  - rewrite length_app. simpl. lia.
Qed.

Lemma decodeURIComponent_bad_escape_witness :
  decodeURIComponent ("100" ++ String "%" ".html") = None.
Proof. apply decodeURIComponent_bad_escape. reflexivity. Defined.

(** ** Further properties: [path.join] *)

Lemma split_on_nonempty sep s : exists p ps, split_on sep s = p :: ps.
Proof.
  destruct s as [|c r]; simpl; [eauto|].
  destruct (Ascii.eqb c sep); [eauto|].
  destruct (split_on sep r); eauto.
Qed.

Lemma split_on_app sep a b :
  split_on sep (a ++ String sep b) = split_on sep a ++ split_on sep b.
Proof.
  induction a as [|c a IH]; simpl.
  - rewrite Ascii.eqb_refl. reflexivity.
  - rewrite IH. destruct (Ascii.eqb c sep); [reflexivity|].
    destruct (split_on_nonempty sep a) as [p [ps ->]]. reflexivity.
Qed.

Lemma normalizeString_skip_empty b l1 l2 res :
  normalizeString b res (l1 ++ "" :: l2) = normalizeString b res (l1 ++ l2).
Proof.
  revert res. induction l1 as [|seg l1 IH]; intros res; simpl; [reflexivity|].
  destruct (String.eqb seg "" || String.eqb seg "."); [apply IH|].
  destruct (String.eqb seg ".."); [|apply IH].
  destruct res as [|last res']; [apply IH|].
  destruct (String.eqb last ".."); apply IH.
Qed.

Lemma first_char_app a b : a <> "" -> first_char (a ++ b) = first_char a.
Proof. destruct a; [congruence | reflexivity]. Qed.

Lemma last_char_app a b : b <> "" -> last_char (a ++ b) = last_char b.
Proof.
  intros Hb. unfold last_char. rewrite list_ascii_of_string_app, rev_app_distr.
  destruct b as [|c b]; [congruence|]. simpl.
  destruct (rev (list_ascii_of_string b)); reflexivity.
Qed.

Lemma concat_two (x y : string) : x <> "" -> y <> "" ->
  String.concat "/" (filter (fun a => negb (String.eqb a "")) [x; y]) =
  (x ++ String "/" y)%string.
Proof.
  intros Hx Hy. simpl.
  apply String.eqb_neq in Hx, Hy. rewrite Hx, Hy. reflexivity.
Qed.

(** A leading [/] on the second argument of [path.join] changes nothing:
    a rendered file path such as ["/about.html"] is written under the
    output directory, at the same place as ["about.html"]. *)
Theorem path_join_leading_slash o p :
  o <> "" -> p <> "" ->
  path_join [o; String "/" p] = path_join [o; p].
Proof.
  intros Ho Hp. unfold path_join.
  rewrite !concat_two by (auto || discriminate).
  assert (Hne : forall q, String.eqb (o ++ String "/" q) "" = false).
  { intros q. apply String.eqb_neq. destruct o; [congruence | discriminate]. }
  rewrite !Hne. unfold path_normalize. rewrite !Hne.
  rewrite !first_char_app by exact Ho.
  rewrite !last_char_app by discriminate.
  replace (last_char (String "/" p)) with (last_char p)
    by (symmetry; apply (last_char_app "/" p Hp)).
  replace (last_char (String "/" (String "/" p))) with (last_char p)
    by (symmetry; apply (last_char_app "//" p Hp)).
  rewrite !split_on_app.
  replace (split_on "/" (String "/" p)) with ("" :: split_on "/" p)
    by reflexivity.
  rewrite normalizeString_skip_empty. reflexivity.
Qed.

Lemma path_join_leading_slash_witness :
  path_join ["dist"; "/about.html"] = path_join ["dist"; "about.html"].
Proof. apply path_join_leading_slash; discriminate. Defined.

Lemma concat_split s : String.concat "/" (split_on "/"%char s) = s.
Proof.
  induction s as [|c r IH]; [reflexivity|].
  destruct (split_on_nonempty "/"%char r) as [p [ps Hs]].
  cbn [split_on]. rewrite Hs. rewrite Hs in IH.
  destruct (Ascii.eqb c "/"%char) eqn:Ec.
  - apply Ascii.eqb_eq in Ec; subst c.
    change (String.concat "/" ("" :: p :: ps))
      with ("" ++ "/" ++ String.concat "/" (p :: ps))%string.
    rewrite IH. reflexivity.
  - destruct ps as [|q qs].
    + simpl in IH |- *. congruence.
    + change (String.concat "/" (String c p :: q :: qs))
        with (String c p ++ "/" ++ String.concat "/" (q :: qs))%string.
      change (String.concat "/" (p :: q :: qs))
        with (p ++ "/" ++ String.concat "/" (q :: qs))%string in IH.
      rewrite <- IH. reflexivity.
Qed.

Lemma string_app_assoc (a b c : string) :
  (a ++ (b ++ c))%string = ((a ++ b) ++ c)%string.
Proof. induction a as [|x a IH]; simpl; congruence. Qed.

Lemma concat_app (l1 l2 : list string) : l1 <> [] -> l2 <> [] ->
  String.concat "/" (l1 ++ l2) =
  (String.concat "/" l1 ++ "/" ++ String.concat "/" l2)%string.
Proof.
  intros H1 H2. induction l1 as [|x [|y l1] IH]; [congruence| |].
  - simpl. destruct l2; [congruence | reflexivity].
  - change ((x :: y :: l1) ++ l2) with (x :: ((y :: l1) ++ l2)).
    change (String.concat "/" (x :: ((y :: l1) ++ l2)))
      with (x ++ "/" ++ String.concat "/" ((y :: l1) ++ l2))%string.
    rewrite IH by discriminate.
    change (String.concat "/" (x :: y :: l1))
      with (x ++ "/" ++ String.concat "/" (y :: l1))%string.
    rewrite <- !string_app_assoc. reflexivity.
Qed.

Lemma normalizeString_plain b res segs :
  forallb plain_segment segs = true -> normalizeString b res segs = rev res ++ segs.
Proof.
  revert res. induction segs as [|seg segs IH]; intros res H; simpl in *.
  - rewrite app_nil_r. reflexivity.
  - apply andb_true_iff in H as [Hs H]. unfold plain_segment in Hs.
    destruct (String.eqb seg "" || String.eqb seg "."); [discriminate|].
    destruct (String.eqb seg ".."); [discriminate|].
    rewrite IH by exact H. simpl. rewrite <- app_assoc. reflexivity.
Qed.

Lemma slash_match (oc : option ascii) :
  match oc with Some "/"%char => true | _ => false end =
  match oc with Some c => Ascii.eqb c "/"%char | None => false end.
Proof. destruct oc as [[[] [] [] [] [] [] [] []]|]; reflexivity. Qed.

Lemma last_char_some s c :
  last_char s = Some c -> exists s0, s = (s0 ++ String c "")%string.
Proof.
  unfold last_char. destruct (rev (list_ascii_of_string s)) as [|c' r] eqn:E;
    simpl; [discriminate|].
  intros H; injection H as ->. exists (string_of_list_ascii (rev r)).
  rewrite <- (string_of_list_ascii_of_string s).
  assert (Hl : list_ascii_of_string s = rev r ++ [c]).
  { rewrite <- (rev_involutive (list_ascii_of_string s)), E. reflexivity. }
  rewrite Hl, string_of_list_ascii_app. reflexivity.
Qed.

Lemma plain_path_facts s :
  plain_path s = true ->
  s <> "" /\ first_char s <> Some "/"%char /\ last_char s <> Some "/"%char.
Proof.
  unfold plain_path. intros H. split; [|split].
  - intros ->. discriminate.
  - destruct s as [|c r]; [discriminate|]. simpl. intros Hc. injection Hc as ->.
    simpl in H. discriminate.
  - intros Hl. apply last_char_some in Hl as [s0 ->].
    rewrite split_on_app, forallb_app in H. simpl in H.
    rewrite andb_false_r in H. discriminate.
Qed.

(** [path.join] of two plain paths (relative, or an absolute first one) is
    the two put together with one [/]: with a plain output directory, a
    plain decoded path such as ["about/index.html"] is written at
    [outdir ++ "/about/index.html"]. *)
Theorem path_join_plain o p :
  plain_path o = true -> plain_path p = true ->
  path_join [o; p] = (o ++ "/" ++ p)%string /\
  path_join [String "/" o; p] = ("/" ++ o ++ "/" ++ p)%string.
Proof.
  intros Ho Hp.
  destruct (plain_path_facts o Ho) as [Hoe [Hof Hol]].
  destruct (plain_path_facts p Hp) as [Hpe [Hpf Hpl]].
  assert (Hlast : forall a, match last_char (a ++ String "/" p) with
                            | Some "/"%char => true | _ => false end = false).
  { intros a. rewrite (last_char_app a (String "/" p)) by discriminate.
    change (String "/" p) with ("/" ++ p)%string. rewrite (last_char_app "/" p Hpe). rewrite slash_match.
    destruct (last_char p) as [c|] eqn:Ec; [|reflexivity].
    destruct (Ascii.eqb c "/"%char) eqn:E; [|reflexivity].
    apply Ascii.eqb_eq in E. congruence. }
  assert (Hsegs : forallb plain_segment (split_on "/"%char o ++ split_on "/"%char p) = true)
    by (rewrite forallb_app; apply andb_true_iff; split; assumption).
  assert (Hcat : String.concat "/" (split_on "/"%char o ++ split_on "/"%char p) =
                 (o ++ "/" ++ p)%string).
  { destruct (split_on_nonempty "/"%char o) as [x [xs Ex]].
    destruct (split_on_nonempty "/"%char p) as [y [ys Ey]].
    rewrite concat_app by (rewrite ?Ex, ?Ey; discriminate).
    rewrite !concat_split. reflexivity. }
  assert (Hne : (o ++ "/" ++ p)%string <> "") by (destruct o; [congruence | discriminate]).
  apply String.eqb_neq in Hne.
  unfold path_join. split.
  - rewrite concat_two by assumption.
    change ("/" ++ p)%string with (String "/" p) in Hne, Hcat. rewrite Hne.
    unfold path_normalize. rewrite Hne.
    rewrite (first_char_app o _ Hoe), slash_match.
    replace (match first_char o with Some c => Ascii.eqb c "/"%char | None => false end)
      with false.
    2: { destruct (first_char o) as [c|]; [|reflexivity].
         destruct (Ascii.eqb c "/"%char) eqn:E; [|reflexivity].
         apply Ascii.eqb_eq in E. congruence. }
    rewrite Hlast, split_on_app, normalizeString_plain by exact Hsegs.
    simpl rev. rewrite app_nil_l, Hcat, Hne. reflexivity.
  - rewrite concat_two by (assumption || discriminate).
    assert (Hne' : String.eqb (String "/" o ++ String "/" p) "" = false) by reflexivity.
    rewrite Hne'. unfold path_normalize. rewrite Hne'.
    rewrite (Hlast (String "/" o)).
    change (String "/" o ++ String "/" p)%string with ("/" ++ (o ++ String "/" p))%string.
    simpl first_char.
    replace (split_on "/"%char ("/" ++ (o ++ String "/" p)))
      with ("" :: split_on "/"%char (o ++ String "/" p)) by reflexivity.
    change (normalizeString (negb true) [] ("" :: split_on "/"%char (o ++ String "/" p)))
      with (normalizeString false [] (split_on "/"%char (o ++ String "/" p))).
    rewrite split_on_app, normalizeString_plain by exact Hsegs.
    simpl rev. rewrite app_nil_l.
    change ("/" ++ p)%string with (String "/" p) in Hne, Hcat. rewrite Hcat, Hne.
    reflexivity.
Qed.

Lemma path_join_plain_witness :
  path_join ["site/dist"; "about/index.html"] = "site/dist/about/index.html" /\
  path_join ["/site/dist"; "about/index.html"] = "/site/dist/about/index.html".
Proof.
  apply (path_join_plain "site/dist" "about/index.html"); reflexivity.
Defined.

(** ** Further properties: ingestion *)

Lemma map_settled_processFile_run E files w :
  map_settled (processFile_call E) files w =
    (Ok (map (fun f => match processFile E f with Ok _ => Ok tt | Throw e => Throw e end)
             files),
     World (trace w ++ map EProcessFile files)
           (db w ++ flat_map (records_of E) files) (disk w)).
Proof.
  revert w; induction files as [|f fs IH]; intros w; simpl.
  - unfold ret. rewrite !app_nil_r. now destruct w.
  - unfold bind at 1. rewrite processFile_call_run.
    unfold bind at 1. rewrite IH. simpl. unfold ret. rewrite <- !app_assoc. reflexivity.
Qed.

Lemma promise_all_outcome {A} (rs : list (result A)) w :
  (fst (promise_all rs w) = Ok tt <-> Forall (fun r => exists a, r = Ok a) rs) /\
  (forall e, fst (promise_all rs w) = Throw e -> In (Throw e) rs).
Proof.
  induction rs as [|[a|e'] rs [IH1 IH2]]; simpl.
  - split; [split; auto | intros e H; discriminate].
  - split.
    + rewrite IH1. split; intros H; [constructor; eauto | inversion H; auto].
    + intros e H. right. auto.
  - split.
    + split; [discriminate | intros H; inversion H as [|? ? [a Ha]]; discriminate].
    + intros e H. injection H as ->. left. reflexivity.
Qed.

(** Without a content directory, ingestion only warns: it succeeds and
    leaves the store and the disk as they are.  A content path that
    resolves to the empty string skips ingestion without a warning. *)
Theorem getContent_without_content_dir E config w :
  filter Plugin.transform (plugins config) <> [] ->
  filter Plugin.collect (plugins config) <> [] ->
  (forall e, getPath E (getContentPath config) = Throw e ->
     getContent E config w =
       (Ok tt, World (trace w ++ [EWarn (no_content_warning config)]) (db w) (disk w))) /\
  (getPath E (getContentPath config) = Ok "" -> getContent E config w = (Ok tt, w)).
Proof.
  intros Ht Hc. unfold getContent.
  destruct (filter Plugin.transform (plugins config)) as [|t ts]; [congruence|].
  destruct (filter Plugin.collect (plugins config)) as [|c cs]; [congruence|].
  simpl. split.
  - intros e Hp. rewrite Hp. reflexivity.
  - intros Hp. rewrite Hp. reflexivity.
Qed.

Lemma getContent_without_content_dir_witness :
  getContent (Env None (Ok 3333) (fun _ => Throw (Error "ENOENT")) (fun _ => [])
                  (fun _ => Ok []) (fun _ _ => None))
             (full_site ["/"]) (World [] [("old-post", "stale")] []) =
    (Ok tt, World [EWarn (no_content_warning (full_site ["/"]))] [("old-post", "stale")] []).
Proof.
  apply (proj1 (getContent_without_content_dir
                  (Env None (Ok 3333) (fun _ => Throw (Error "ENOENT")) (fun _ => [])
                       (fun _ => Ok []) (fun _ _ => None))
                  (full_site ["/"]) (World [] [("old-post", "stale")] [])
                  ltac:(discriminate) ltac:(discriminate)) (Error "ENOENT")).
  reflexivity.
Defined.

Lemma getContent_run_dir E config w cp :
  filter Plugin.transform (plugins config) <> [] ->
  filter Plugin.collect (plugins config) <> [] ->
  getPath E (getContentPath config) = Ok cp -> cp <> "" ->
  getContent E config w =
    promise_all
      (map (fun f => match processFile E f with Ok _ => Ok tt | Throw e => Throw e end)
           (oneShot E cp))
      (World (trace w ++ EDestroy :: map EProcessFile (oneShot E cp))
             (flat_map (records_of E) (oneShot E cp)) (disk w)).
Proof.
  intros Ht Hc Hp Hne. unfold getContent.
  destruct (filter Plugin.transform (plugins config)) as [|t ts]; [congruence|].
  destruct (filter Plugin.collect (plugins config)) as [|c cs]; [congruence|].
  simpl. rewrite Hp. unfold bind at 1, ret.
  apply String.eqb_neq in Hne. rewrite Hne.
  unfold db_destroy, bind, set_db, emit. simpl.
  rewrite map_settled_processFile_run. simpl. rewrite <- app_assoc. reflexivity.
Qed.

(** With a content directory, ingestion empties the store and then starts
    the processing of every discovered file, in the order [oneShot] lists
    them: a file that fails does not stop the others from being started.
    Ingestion succeeds if and only if every file processed; otherwise it
    fails with the error of a file that did not. *)
Theorem getContent_processes_every_file E config w cp :
  filter Plugin.transform (plugins config) <> [] ->
  filter Plugin.collect (plugins config) <> [] ->
  getPath E (getContentPath config) = Ok cp -> cp <> "" ->
  trace (snd (getContent E config w)) =
    trace w ++ EDestroy :: map EProcessFile (oneShot E cp) /\
  (fst (getContent E config w) = Ok tt <->
     Forall (fun f => exists rs, processFile E f = Ok rs) (oneShot E cp)) /\
  (forall e, fst (getContent E config w) = Throw e ->
     exists f, In f (oneShot E cp) /\ processFile E f = Throw e).
Proof.
  intros Ht Hc Hp Hne. rewrite (getContent_run_dir E config w cp Ht Hc Hp Hne).
  match goal with |- context [promise_all ?rs0 ?W0] =>
    pose proof (promise_all_world rs0 W0) as Hw;
    destruct (promise_all_outcome rs0 W0) as [Hok Herr];
    destruct (promise_all rs0 W0) as [r w'] eqn:Hpa end.
  simpl in Hw, Hok, Herr |- *. subst w'. simpl.
  split; [reflexivity|split].
  - rewrite Hok, Forall_map. split; apply Forall_impl.
    + intros f [a Ha]. destruct (processFile E f) as [rs'|e]; [eauto | discriminate].
    + intros f [rs' Hf]. rewrite Hf. eauto.
  - intros e He. apply Herr in He. apply in_map_iff in He as [f [Hf Hin]].
    exists f. split; [exact Hin|]. destruct (processFile E f); congruence.
Qed.

Lemma getContent_processes_every_file_witness :
  trace (snd (getContent env_ok (full_site ["/"]) empty_world)) =
    [EDestroy; EProcessFile "index.md"] /\
  (fst (getContent env_ok (full_site ["/"]) empty_world) = Ok tt <->
     Forall (fun f => exists rs, processFile env_ok f = Ok rs) ["index.md"]) /\
  (forall e, fst (getContent env_ok (full_site ["/"]) empty_world) = Throw e ->
     exists f, In f ["index.md"] /\ processFile env_ok f = Throw e).
Proof.
  apply (getContent_processes_every_file env_ok (full_site ["/"]) empty_world "/site/content");
    [discriminate | discriminate | reflexivity | discriminate].
Defined.

(** ** Further properties: the writes of a page *)

Lemma writeFile_call_run E p c w :
  writeFile_call E p c w =
    match writeFile E p c with
    | Some e => (Ok (Throw e), w)
    | None => (Ok (Ok tt),
               World (trace w ++ [EWrite p c]) (db w)
                 ((p, c) :: filter (fun f => negb (String.eqb (fst f) p)) (disk w)))
    end.
Proof. unfold writeFile_call. destruct (writeFile E p c); reflexivity. Qed.

Lemma write_files_run E o files w :
  Forall (fun f => decodeURIComponent (rf_path f) <> None) files ->
  exists d,
    write_files E o files w =
      (Ok (map (fun f => match writeFile E (write_target o f) (rf_contents f) with
                         | Some e => Throw e | None => Ok tt end) files),
       World (trace w ++ written E o files) (db w) d).
Proof.
  intros Hd. revert w. induction Hd as [|f fs Hf Hfs IH]; intros w.
  - exists (disk w). unfold ret, written. simpl. rewrite app_nil_r. now destruct w.
  - destruct (decodeURIComponent (rf_path f)) as [p|] eqn:Ep; [|congruence].
    assert (Ht : write_target o f = path_join [o; p])
      by (unfold write_target; now rewrite Ep).
    cbn [write_files]. rewrite Ep, <- Ht.
    unfold bind at 1. rewrite writeFile_call_run. unfold written. cbn [filter map].
    destruct (writeFile E (write_target o f) (rf_contents f)) as [e|] eqn:Ew.
    + assert (Hs : write_succeeds E o f = false)
        by (unfold write_succeeds; now rewrite Ew).
      rewrite Hs. unfold bind. destruct (IH w) as [d Hw]. rewrite Hw. exists d.
      reflexivity.
    + assert (Hs : write_succeeds E o f = true)
        by (unfold write_succeeds; now rewrite Ew).
      rewrite Hs. unfold bind. match goal with |- context [write_files E o fs ?W] =>
        destruct (IH W) as [d Hw]; rewrite Hw end.
      exists d. cbn [map trace db]. rewrite <- app_assoc. reflexivity.
Qed.

Lemma write_files_stop E o pre f post w :
  Forall (fun g => decodeURIComponent (rf_path g) <> None) pre ->
  decodeURIComponent (rf_path f) = None ->
  exists d,
    write_files E o (pre ++ f :: post) w =
      (Throw URIError, World (trace w ++ written E o pre) (db w) d).
Proof.
  intros Hd Hf. revert w. induction Hd as [|g gs Hg Hgs IH]; intros w.
  - cbn [List.app write_files]. rewrite Hf. exists (disk w). unfold throw, written.
    simpl. rewrite app_nil_r. now destruct w.
  - destruct (decodeURIComponent (rf_path g)) as [p|] eqn:Ep; [|congruence].
    assert (Ht : write_target o g = path_join [o; p])
      by (unfold write_target; now rewrite Ep).
    cbn [List.app write_files]. rewrite Ep, <- Ht.
    unfold bind at 1. rewrite writeFile_call_run. unfold written. cbn [filter map].
    destruct (writeFile E (write_target o g) (rf_contents g)) as [e|] eqn:Ew.
    + assert (Hs : write_succeeds E o g = false)
        by (unfold write_succeeds; now rewrite Ew).
      rewrite Hs. unfold bind. destruct (IH w) as [d Hw]. rewrite Hw. exists d.
      reflexivity.
    + assert (Hs : write_succeeds E o g = true)
        by (unfold write_succeeds; now rewrite Ew).
      rewrite Hs. unfold bind.
      match goal with |- context [write_files E o (gs ++ f :: post) ?W] =>
        destruct (IH W) as [d Hw]; rewrite Hw end.
      exists d. cbn [map trace db]. rewrite <- app_assoc. reflexivity.
Qed.

Lemma prerender_run E config r rs app assets location w files :
  Plugin.renderStatic r = Some rs ->
  rs app assets location (db w) = Ok files ->
  prerenderFileAndDependencies E config (Some r) app assets location w =
    (settled <- write_files E (outdir config) files;; promise_all settled)
      (World (trace w ++ [ERenderStatic location]) (db w) (disk w)).
Proof.
  intros Hr Hrs. unfold prerenderFileAndDependencies. rewrite Hr.
  unfold bind at 1, emit. unfold bind at 1, get_db. simpl. rewrite Hrs. reflexivity.
Qed.

(** When every rendered file path decodes, the page's writes are all
    started, in the order [renderStatic] returned the files: a write that
    fails does not stop the others.  The call succeeds if and only if every
    write succeeded, and otherwise fails with the error of a failed write;
    the store is untouched. *)
Theorem prerender_writes_every_file E config r rs app assets location w files :
  Plugin.renderStatic r = Some rs ->
  rs app assets location (db w) = Ok files ->
  Forall (fun f => decodeURIComponent (rf_path f) <> None) files ->
  let (res, w') := prerenderFileAndDependencies E config (Some r) app assets location w in
  trace w' = trace w ++ ERenderStatic location :: written E (outdir config) files /\
  db w' = db w /\
  (res = Ok tt <-> Forall (fun f => write_succeeds E (outdir config) f = true) files) /\
  (forall e, res = Throw e ->
     exists f, In f files /\
       writeFile E (write_target (outdir config) f) (rf_contents f) = Some e).
Proof.
  intros Hr Hrs Hd. rewrite (prerender_run E config r rs app assets location w files Hr Hrs).
  unfold bind.
  match goal with |- context [write_files E (outdir config) files ?W] =>
    destruct (write_files_run E (outdir config) files W Hd) as [d Hw] end.
  rewrite Hw.
  match goal with |- context [promise_all ?rs0 ?W0] =>
    pose proof (promise_all_world rs0 W0) as Hpw;
    destruct (promise_all_outcome rs0 W0) as [Hok Herr];
    destruct (promise_all rs0 W0) as [res w'] eqn:Hpa end.
  simpl in Hpw, Hok, Herr. subst w'. simpl.
  split; [rewrite <- app_assoc; reflexivity|]. split; [reflexivity|]. split.
  - rewrite Hok, Forall_map. unfold write_succeeds. split; apply Forall_impl.
    + intros f [a Ha]. destruct (writeFile _ _ _); [discriminate | reflexivity].
    + intros f Hf. destruct (writeFile _ _ _); [discriminate | eauto].
  - intros e He. apply Herr, in_map_iff in He as [f [Hf Hin]].
    exists f. split; [exact Hin|]. destruct (writeFile _ _ _); congruence.
Qed.

Lemma prerender_writes_every_file_witness :
  let r := renderer_plugin ["/"]
             [RenderedFile "index.html" "<html>"; RenderedFile "a%20b.html" "<p>"] in
  let (res, w') := prerenderFileAndDependencies env_ok (full_site ["/"]) (Some r)
                     "app" "assets" "/" empty_world in
  trace w' = [ERenderStatic "/"; EWrite "dist/index.html" "<html>"; EWrite "dist/a b.html" "<p>"] /\
  db w' = [] /\
  (res = Ok tt <-> Forall (fun f => write_succeeds env_ok "dist" f = true)
                     [RenderedFile "index.html" "<html>"; RenderedFile "a%20b.html" "<p>"]) /\
  (forall e, res = Throw e ->
     exists f, In f [RenderedFile "index.html" "<html>"; RenderedFile "a%20b.html" "<p>"] /\
       writeFile env_ok (write_target "dist" f) (rf_contents f) = Some e).
Proof.
  apply (prerender_writes_every_file env_ok (full_site ["/"])
           (renderer_plugin ["/"]
              [RenderedFile "index.html" "<html>"; RenderedFile "a%20b.html" "<p>"])
           (fun _ _ _ _ => Ok [RenderedFile "index.html" "<html>";
                                RenderedFile "a%20b.html" "<p>"])
           "app" "assets" "/" empty_world
           [RenderedFile "index.html" "<html>"; RenderedFile "a%20b.html" "<p>"]);
    [reflexivity | reflexivity | repeat constructor; discriminate].
Defined.

(** A rendered file whose path does not decode stops the writes of its
    page: the files before it are written (each whose write succeeds), the
    file itself and those after it are not, and the call fails with the
    [URIError]. *)
Theorem prerender_stops_at_undecodable_path E config r rs app assets location w pre f post :
  Plugin.renderStatic r = Some rs ->
  rs app assets location (db w) = Ok (pre ++ f :: post) ->
  Forall (fun g => decodeURIComponent (rf_path g) <> None) pre ->
  decodeURIComponent (rf_path f) = None ->
  let (res, w') := prerenderFileAndDependencies E config (Some r) app assets location w in
  res = Throw URIError /\
  trace w' = trace w ++ ERenderStatic location :: written E (outdir config) pre /\
  db w' = db w.
Proof.
  intros Hr Hrs Hd Hf.
  rewrite (prerender_run E config r rs app assets location w _ Hr Hrs).
  unfold bind.
  match goal with |- context [write_files E (outdir config) _ ?W] =>
    destruct (write_files_stop E (outdir config) pre f post W Hd Hf) as [d Hw] end.
  rewrite Hw. simpl. rewrite <- app_assoc. auto.
Qed.

Lemma prerender_stops_at_undecodable_path_witness :
  let r := renderer_plugin ["/"]
             [RenderedFile "index.html" "<html>"; RenderedFile "100%.html" "<p>";
              RenderedFile "about.html" "<p>"] in
  let (res, w') := prerenderFileAndDependencies env_ok (full_site ["/"]) (Some r)
                     "app" "assets" "/" empty_world in
  res = Throw URIError /\
  trace w' = [ERenderStatic "/"; EWrite "dist/index.html" "<html>"] /\
  db w' = [].
Proof.
  apply (prerender_stops_at_undecodable_path env_ok (full_site ["/"])
           (renderer_plugin ["/"]
              [RenderedFile "index.html" "<html>"; RenderedFile "100%.html" "<p>";
               RenderedFile "about.html" "<p>"])
           (fun _ _ _ _ => Ok [RenderedFile "index.html" "<html>";
                                RenderedFile "100%.html" "<p>";
                                RenderedFile "about.html" "<p>"])
           "app" "assets" "/" empty_world
           [RenderedFile "index.html" "<html>"] (RenderedFile "100%.html" "<p>")
           [RenderedFile "about.html" "<p>"]);
    [reflexivity | reflexivity | repeat constructor; discriminate | reflexivity].
Defined.

(** ** Further properties: the [beforeBuild] hooks and the bundler *)

Lemma beforeBuild_settled_run ps w :
  map_settled
    (fun p => match Plugin.beforeBuild p with
              | None => ret (Ok tt)
              | Some r => emit (EBeforeBuild (Plugin.name p));; ret r
              end) ps w =
  (Ok (map (fun p => match Plugin.beforeBuild p with None => Ok tt | Some r => r end) ps),
   World (trace w ++ before_build_events ps) (db w) (disk w)).
Proof.
  unfold before_build_events. revert w.
  induction ps as [|p ps IH]; intros w; cbn [map_settled map filter].
  - unfold ret. rewrite app_nil_r. now destruct w.
  - destruct (Plugin.beforeBuild p) as [r|]; unfold bind at 1.
    + unfold bind at 1, emit. cbn. unfold bind. rewrite IH. cbn.
      rewrite <- app_assoc. reflexivity.
    + unfold ret at 1. unfold bind. rewrite IH. reflexivity.
Qed.

Lemma beforeBuildHooks_run E config w :
  beforeBuildHooks E config w =
  promise_all
    (map (fun p => match Plugin.beforeBuild p with None => Ok tt | Some r => r end)
       (plugins config))
    (World (trace w ++ before_build_events (plugins config)) (db w) (disk w)).
Proof.
  unfold beforeBuildHooks, bind at 1. rewrite beforeBuild_settled_run. reflexivity.
Qed.

Lemma beforeBuildHooks_result E config w :
  let (r, w') := beforeBuildHooks E config w in
  w' = World (trace w ++ before_build_events (plugins config)) (db w) (disk w) /\
  (r = Ok tt <->
     Forall (fun p => forall e, Plugin.beforeBuild p <> Some (Throw e)) (plugins config)) /\
  (forall e, r = Throw e ->
     exists p, In p (plugins config) /\ Plugin.beforeBuild p = Some (Throw e)).
Proof.
  rewrite beforeBuildHooks_run.
  match goal with |- context [promise_all ?rs0 ?W0] =>
    pose proof (promise_all_world rs0 W0) as Hpw;
    destruct (promise_all_outcome rs0 W0) as [Hok Herr];
    destruct (promise_all rs0 W0) as [res w'] eqn:Hpa end.
  simpl in Hpw, Hok, Herr. subst w'. split; [reflexivity|]. split.
  - rewrite Hok, Forall_map. split; apply Forall_impl.
    + intros p [a Ha] e He. rewrite He in Ha. discriminate.
    + intros p Hp. destruct (Plugin.beforeBuild p) as [[u|e]|]; eauto.
      exfalso. now apply (Hp e).
  - intros e He. apply Herr, in_map_iff in He as [p [Hp Hin]].
    exists p. split; [exact Hin|].
    destruct (Plugin.beforeBuild p) as [[u|e']|]; congruence.
Qed.

(** Every [beforeBuild] hook is called, in plugin order, even when an
    earlier one rejects.  The hooks succeed together if and only if none of
    them rejects, and a failure is the rejection of one of them. *)
Theorem beforeBuildHooks_calls_every_hook E config w :
  let (r, w') := beforeBuildHooks E config w in
  trace w' = trace w ++ before_build_events (plugins config) /\
  (r = Ok tt <->
     Forall (fun p => forall e, Plugin.beforeBuild p <> Some (Throw e)) (plugins config)) /\
  (forall e, r = Throw e ->
     exists p, In p (plugins config) /\ Plugin.beforeBuild p = Some (Throw e)).
Proof.
  pose proof (beforeBuildHooks_result E config w) as H.
  destruct (beforeBuildHooks E config w) as [r w']. destruct H as [-> H]. exact (conj eq_refl H).
Qed.

Lemma first_with_some {X} (cap : Plugin.t -> option X) ps b :
  first_with cap ps = Some b -> In b ps /\ exists x, cap b = Some x.
Proof.
  unfold first_with. induction ps as [|p ps IH]; simpl; [discriminate|].
  destruct (cap p) as [x|] eqn:Hc; simpl.
  - intros H. injection H as <-. split; [now left | now exists x].
  - intros H. destruct (IH H) as [Hin Hx]. split; [now right | exact Hx].
Qed.

(** A failure of the bundling phase (the [beforeBuild] hooks, [build] and
    [buildForPrerendering]) is either the missing-bundler error of [build]
    or an error returned by one of the plugins.  In particular the
    [buildForPrerendering] check never fires: the bundler is chosen among
    the plugins that implement [buildForPrerendering]. *)
Theorem bundling_errors E config w e :
  fst (bundling E config w) = Throw e ->
  e = err_bundler_build \/
  exists p, In p (plugins config) /\
    (Plugin.beforeBuild p = Some (Throw e) \/ Plugin.build p = Some (Throw e) \/
     Plugin.buildForPrerendering p = Some (Throw e)).
Proof.
  unfold bundling, bind at 1.
  pose proof (beforeBuildHooks_result E config w) as Hh.
  destruct (beforeBuildHooks E config w) as [[u|e'] w1].
  - destruct (selectBundler (plugins config)) as [b|] eqn:Hb; [|simpl; intros H; left; congruence].
    destruct (first_with_some _ _ _ Hb) as [Hin [ap0 Hap0]].
    destruct (Plugin.build b) as [rb|] eqn:Hbuild; [|simpl; intros H; left; congruence].
    unfold bind at 1, emit. unfold bind at 1.
    destruct rb as [a|eb]; cbn [lift ret throw].
    + rewrite Hap0. unfold bind at 1, emit. unfold bind at 1.
      destruct ap0 as [ap|ea]; cbn [lift ret throw fst]; [discriminate|].
      intros H. injection H as <-. right. exists b. auto.
    + intros H. injection H as <-. right. exists b. auto.
  - destruct Hh as [_ [_ Hh]]. intros H. simpl in H. injection H as <-.
    right. destruct (Hh e' eq_refl) as [p [Hp Hp']]. exists p. auto.
Qed.

Lemma bundling_errors_witness :
  fst (bundling env_ok (site_config "dist" [failing_hook_plugin; build_only_plugin]) empty_world)
    = Throw (Error "hook failed") /\
  (Error "hook failed" = err_bundler_build \/
   exists p, In p [failing_hook_plugin; build_only_plugin] /\
     (Plugin.beforeBuild p = Some (Throw (Error "hook failed")) \/
      Plugin.build p = Some (Throw (Error "hook failed")) \/
      Plugin.buildForPrerendering p = Some (Throw (Error "hook failed")))).
Proof.
  split; [reflexivity|].
  apply (bundling_errors env_ok (site_config "dist" [failing_hook_plugin; build_only_plugin])
           empty_world (Error "hook failed")).
  reflexivity.
Defined.

(** When the bundling phase succeeds, its assets and app are those
    returned by [build] and [buildForPrerendering] of the first plugin that
    implements [buildForPrerendering], no [beforeBuild] hook rejected, and
    the calls made are the hooks, in plugin order, then that plugin's
    [build] and then its [buildForPrerendering]. *)
Theorem bundling_success E config w a ap :
  fst (bundling E config w) = Ok (a, ap) ->
  exists b,
    selectBundler (plugins config) = Some b /\
    Plugin.build b = Some (Ok a) /\
    Plugin.buildForPrerendering b = Some (Ok ap) /\
    Forall (fun p => forall e, Plugin.beforeBuild p <> Some (Throw e)) (plugins config) /\
    trace (snd (bundling E config w)) =
      trace w ++ before_build_events (plugins config) ++
        [EBuild (Plugin.name b); EBuildForPrerendering (Plugin.name b)].
Proof.
  destruct (bundling E config w) as [r w'] eqn:Hbun. cbn [fst snd]. intros ->.
  revert Hbun. unfold bundling, bind at 1.
  pose proof (beforeBuildHooks_result E config w) as Hh.
  destruct (beforeBuildHooks E config w) as [[u|e'] w1]; [|discriminate].
  destruct Hh as [-> [Hok _]]. destruct u.
  destruct (selectBundler (plugins config)) as [b|] eqn:Hb; [|discriminate].
  destruct (Plugin.build b) as [rb|] eqn:Hbuild; [|discriminate].
  unfold bind at 1, emit. unfold bind at 1.
  destruct rb as [a'|eb]; cbn [lift ret throw]; [|discriminate].
  destruct (Plugin.buildForPrerendering b) as [rap|] eqn:Hbp; [|discriminate].
  unfold bind at 1, emit. unfold bind at 1.
  destruct rap as [ap'|ea]; cbn [lift ret throw fst snd]; [|discriminate].
  intros H. injection H as <- <- <-. exists b.
  repeat split; auto.
  - now apply Hok.
  - cbn. rewrite <- ?app_assoc. reflexivity.
Qed.

Lemma bundling_success_witness :
  fst (bundling env_ok (full_site ["/"]) empty_world) = Ok ("assets", "app") /\
  exists b,
    selectBundler (plugins (full_site ["/"])) = Some b /\
    Plugin.build b = Some (Ok "assets") /\
    Plugin.buildForPrerendering b = Some (Ok "app") /\
    Forall (fun p => forall e, Plugin.beforeBuild p <> Some (Throw e))
      (plugins (full_site ["/"])) /\
    trace (snd (bundling env_ok (full_site ["/"]) empty_world)) =
      trace empty_world ++ before_build_events (plugins (full_site ["/"])) ++
        [EBuild (Plugin.name b); EBuildForPrerendering (Plugin.name b)].
Proof.
  split; [reflexivity|].
  apply (bundling_success env_ok (full_site ["/"]) empty_world "assets" "app").
  reflexivity.
Defined.

(** ** Further properties: the scheduling of [pMap] *)

Section PMapOutcome.
Import PMap.

Variable mapper : string -> option exn.
Variable items : list string.

(** What holds at every state reachable from [init]. *)
Definition pmap_inv (s : state) : Prop :=
  (isRejected s = false -> live items s) /\
  (isRejected s = true ->
     incl (inflight s) items /\
     exists e x, outcome s = Some (Throw e) /\ In x items /\ mapper x = Some e) /\
  Forall (fun x => mapper x = None) (completed s).

Lemma start_completed k s : completed (start k s) = completed s.
Proof.
  revert s; induction k as [|k IH]; intros s; simpl; [reflexivity|].
  assert (Hn : completed (next s) = completed s).
  { unfold next. destruct (isRejected s); [reflexivity|].
    destruct (pending s); reflexivity. }
  destruct (iterableDone (next s)); [exact Hn | rewrite IH; exact Hn].
Qed.

Lemma init_inv c : 1 <= c -> pmap_inv (init c items).
Proof.
  intros Hc. pose proof (init_live items c Hc) as Hl.
  split; [auto|]. split.
  - intros Hr. destruct Hl as [Hr' _]. congruence.
  - unfold init. rewrite start_completed. constructor.
Qed.

Lemma step_inv s s' : pmap_inv s -> step mapper s s' -> pmap_inv s'.
Proof.
  intros [HL [HR HC]] Hs.
  destruct Hs as [s l1 x l2 Hin Hx | s l1 x l2 e Hin Hx].
  - pose proof (step_fulfil (fun _ => None) s l1 x l2 Hin eq_refl) as Hs1.
    destruct (isRejected s) eqn:Hr.
    + assert (E : next (St (pending s) (l1 ++ l2) (completed s ++ [x]) true
                         (iterableDone s) (outcome s)) =
                  St (pending s) (l1 ++ l2) (completed s ++ [x]) true
                    (iterableDone s) (outcome s)) by reflexivity.
      rewrite E. destruct (HR eq_refl) as [Hi Hex].
      split; [discriminate|]. split.
      * intros _. split; [|exact Hex]. simpl. rewrite Hin in Hi.
        intros y Hy. apply Hi. apply in_app_or in Hy as [Hy|Hy];
          apply in_or_app; [now left | right; now right].
      * simpl. apply Forall_app. split; [exact HC | now constructor].
    + destruct (step_live (fun _ => None) items s _ (fun _ _ => eq_refl) (HL eq_refl) Hs1)
        as [Hl' _].
      split; [intros _; exact Hl'|]. split.
      * intros Hr'. destruct Hl' as [Hr'' _]. congruence.
      * assert (Hc : completed (next (St (pending s) (l1 ++ l2) (completed s ++ [x])
                                          false (iterableDone s) (outcome s)))
                     = completed s ++ [x]).
        { unfold next. simpl. destruct (pending s); reflexivity. }
        rewrite Hc. apply Forall_app. split; [exact HC | now constructor].
  - split; [simpl; discriminate|]. split; [|exact HC]. intros _. simpl.
    destruct (isRejected s) eqn:Hr.
    + destruct (HR eq_refl) as [Hi [e' [y [Ho Hy]]]]. rewrite Ho. split.
      * intros z Hz. apply Hi. rewrite Hin. apply in_app_or in Hz as [Hz|Hz];
          apply in_or_app; [now left | right; now right].
      * exists e', y. auto.
    + pose proof (HL eq_refl) as Hl. pose proof Hl as [_ [_ [_ H4]]].
      assert (Ho : outcome s = None).
      { destruct (outcome s) eqn:Eo; auto. exfalso.
        destruct (H4 ltac:(congruence)) as [_ [_ Hi]].
        rewrite Hin in Hi. destruct l1; discriminate. }
      rewrite Ho. split.
      * intros z Hz. apply (live_in items s z Hl). rewrite Hin.
        apply in_app_or in Hz as [Hz|Hz]; apply in_or_app; [now left | right; now right].
      * exists e, x. split; [reflexivity|]. split; [|exact Hx].
        apply (live_in items s x Hl). rewrite Hin. apply in_or_app. right. now left.
Qed.

Lemma reachable_inv s s' : pmap_inv s -> reachable mapper s s' -> pmap_inv s'.
Proof.
  intros Hi Hr. revert Hi. unfold reachable in Hr.
  induction Hr as [x y Hxy | x | x y z _ IH1 _ IH2]; intros Hi; auto.
  now apply (step_inv x y).
Qed.

(** The promise returned by [pMap] resolves only once the mapper of every
    URL has fulfilled; when it rejects, it rejects with the error of the
    mapper of one of the URLs. *)
Theorem pMap_settles_with_mappers c s :
  1 <= c -> reachable mapper (init c items) s ->
  (outcome s = Some (Ok tt) ->
     Permutation items (completed s) /\ Forall (fun x => mapper x = None) items) /\
  (forall e, outcome s = Some (Throw e) -> exists x, In x items /\ mapper x = Some e).
Proof.
  intros Hc Hr. destruct (reachable_inv _ s (init_inv c Hc) Hr) as [HL [HR HC]].
  destruct (isRejected s) eqn:Hrej.
  - destruct (HR eq_refl) as [_ [e [x [Ho Hx]]]]. rewrite Ho. split.
    + discriminate.
    + intros e' He'. injection He' as <-. exists x. exact Hx.
  - destruct (HL eq_refl) as [_ [Hp [_ H4]]]. split.
    + intros Ho. destruct (H4 ltac:(congruence)) as [_ [Hpend Hinf]].
      rewrite Hinf, Hpend, !app_nil_r in Hp. split; [exact Hp|].
      apply Forall_forall. intros x Hx. rewrite Forall_forall in HC. apply HC.
      exact (Permutation_in x Hp Hx).
    + intros e Ho. destruct (H4 ltac:(congruence)) as [Ho' _]. congruence.
Qed.

End PMapOutcome.

Lemma pMap_settles_with_mappers_witness :
  let s := PMap.St [] [] ["/"] false true (Some (Ok tt)) in
  (PMap.outcome s = Some (Ok tt) ->
     Permutation ["/"] (PMap.completed s) /\
     Forall (fun x => (fun _ : string => @None exn) x = None) ["/"]) /\
  (forall e, PMap.outcome s = Some (Throw e) ->
     exists x, In x ["/"] /\ (fun _ : string => @None exn) x = Some e).
Proof.
  apply (pMap_settles_with_mappers (fun _ => None) ["/"] prerender_concurrency).
  - unfold prerender_concurrency. lia.
  - apply rt_step.
    exact (PMap.step_fulfil (fun _ => None) (PMap.init prerender_concurrency ["/"])
             [] "/" [] eq_refl eq_refl).
Defined.

Section PMapRejected.
Import PMap.

Variable mapper : string -> option exn.

Lemma step_after_rejection s s' :
  isRejected s = true -> step mapper s s' ->
  isRejected s' = true /\ pending s' = pending s /\
  (outcome s <> None -> outcome s' = outcome s) /\ incl (inflight s') (inflight s).
Proof.
  intros Hr Hs. destruct Hs as [s l1 x l2 Hin Hx | s l1 x l2 e Hin Hx].
  - unfold next. cbn. rewrite Hr. cbn. rewrite Hin. repeat split; auto.
    intros y Hy. apply in_app_or in Hy as [Hy|Hy];
      apply in_or_app; [now left | right; now right].
  - cbn. rewrite Hin. repeat split; auto.
    + intros Ho. destruct (outcome s); congruence.
    + intros y Hy. apply in_app_or in Hy as [Hy|Hy];
        apply in_or_app; [now left | right; now right].
Qed.

(** Once a mapper has rejected, [pMap] takes no further URL and starts no
    further mapper, and its settled outcome never changes. *)
Theorem pMap_stops_after_rejection s s' :
  isRejected s = true -> reachable mapper s s' ->
  isRejected s' = true /\ pending s' = pending s /\
  (outcome s <> None -> outcome s' = outcome s) /\ incl (inflight s') (inflight s).
Proof.
  intros Hr Hreach. unfold reachable in Hreach.
  induction Hreach as [x y Hxy | x | x y z _ IH1 _ IH2].
  - now apply step_after_rejection.
  - repeat split; auto. intros y Hy; exact Hy.
  - destruct (IH1 Hr) as [Hr1 [Hp1 [Ho1 Hi1]]].
    destruct (IH2 Hr1) as [Hr2 [Hp2 [Ho2 Hi2]]].
    split; [exact Hr2|]. split; [congruence|]. split.
    + intros Ho. rewrite Ho2; [now apply Ho1 | rewrite (Ho1 Ho); exact Ho].
    + intros u Hu. auto.
Qed.

End PMapRejected.

Lemma pMap_stops_after_rejection_witness :
  let s := PMap.St ["/b"] ["/a"] [] true false (Some (Throw (Error "render failed"))) in
  let s' := PMap.St ["/b"] [] ["/a"] true false (Some (Throw (Error "render failed"))) in
  PMap.isRejected s' = true /\ PMap.pending s' = PMap.pending s /\
  (PMap.outcome s <> None -> PMap.outcome s' = PMap.outcome s) /\
  incl (PMap.inflight s') (PMap.inflight s).
Proof.
  apply (pMap_stops_after_rejection (fun _ => None)).
  - reflexivity.
  - apply rt_step.
    exact (PMap.step_fulfil (fun _ => None)
             (PMap.St ["/b"] ["/a"] [] true false (Some (Throw (Error "render failed"))))
             [] "/a" [] eq_refl eq_refl).
Defined.
